(** * A verification development for the single-domain crawler [scrape.py]

    The development embeds the crawler shallowly:
    - Python [str] values are [string]s whose characters are the code points
      below 256; the [str] methods the program calls are in module [Py];
    - the functions of [urllib.parse] the program calls are in module
      [Urllib], transcribed from CPython's [Lib/urllib/parse.py];
    - [networkx.DiGraph] is a record of a node-attribute map and an edge set;
    - the module-level globals [graph], [visited], [queue], [queued] form a
      record [CrawlState]; the [while] loop of [scrape] is a step function on
      program points, and [midway] gives the crawl states between the
      statements inside one step, so that every intermediate state of the
      loop can be named. *)

From Stdlib Require Import Ascii String ZArith Lia Bool.
From stdpp Require Import base option list gmap strings sorting.

#[local] Set Warnings "-notation-for-abbreviation,-abstract-large-number".

Local Open Scope Z_scope.
Local Open Scope nat_scope.

(** ** Python [str] methods *)

Module Py.

Definition code (c : ascii) : nat := nat_of_ascii c.

(** [c in s] for a one-character [c]. *)
Fixpoint contains_char (c : ascii) (s : string) : bool :=
  match s with
  | EmptyString => false
  | String a s' => if Ascii.eqb a c then true else contains_char c s'
  end.

Definition startswith (p s : string) : bool := String.prefix p s.

(** [sub in s]. *)
Fixpoint contains (sub s : string) : bool :=
  if String.prefix sub s then true
  else match s with
       | EmptyString => false
       | String _ s' => contains sub s'
       end.

(** [s.endswith(suf)]: some suffix of [s] is [suf]. *)
Fixpoint endswith (suf s : string) : bool :=
  if String.eqb s suf then true
  else match s with
       | EmptyString => false
       | String _ s' => endswith suf s'
       end.

(** [s.partition(c)] at the first occurrence of [c]; [None] when [c] does
    not occur. *)
Fixpoint partition (c : ascii) (s : string) : option (string * string) :=
  match s with
  | EmptyString => None
  | String a s' =>
      if Ascii.eqb a c then Some (EmptyString, s')
      else match partition c s' with
           | Some (l, r) => Some (String a l, r)
           | None => None
           end
  end.

(** [s.split(c)]. *)
Fixpoint split (c : ascii) (s : string) : list string :=
  match s with
  | EmptyString => [EmptyString]
  | String a s' =>
      if Ascii.eqb a c then EmptyString :: split c s'
      else match split c s' with
           | h :: t => String a h :: t
           | [] => [String a EmptyString]
           end
  end.

(** [sep.join(l)]. *)
Fixpoint join (sep : string) (l : list string) : string :=
  match l with
  | [] => EmptyString
  | [x] => x
  | x :: r => x +:+ sep +:+ join sep r
  end.

Definition lower_char (c : ascii) : ascii :=
  if (65 <=? code c) && (code c <=? 90) then ascii_of_nat (code c + 32) else c.

Fixpoint lower (s : string) : string :=
  match s with
  | EmptyString => EmptyString
  | String a s' => String (lower_char a) (lower s')
  end.

Fixpoint filter_chars (keep : ascii -> bool) (s : string) : string :=
  match s with
  | EmptyString => EmptyString
  | String a s' => if keep a then String a (filter_chars keep s') else filter_chars keep s'
  end.

Fixpoint lstrip_chars (drop : ascii -> bool) (s : string) : string :=
  match s with
  | EmptyString => EmptyString
  | String a s' => if drop a then lstrip_chars drop s' else s
  end.

Fixpoint rstrip_chars (drop : ascii -> bool) (s : string) : string :=
  match s with
  | EmptyString => EmptyString
  | String a s' =>
      match rstrip_chars drop s' with
      | EmptyString => if drop a then EmptyString else String a EmptyString
      | r => String a r
      end
  end.

Definition strip_chars (drop : ascii -> bool) (s : string) : string :=
  rstrip_chars drop (lstrip_chars drop s).

(** [str.isspace] on the code points below 256. *)
Definition isspace_char (c : ascii) : bool :=
  let n := code c in
  ((9 <=? n) && (n <=? 13)) || ((28 <=? n) && (n <=? 32))
  || (n =? 133) || (n =? 160).

(** [s.strip()]. *)
Definition strip (s : string) : string := strip_chars isspace_char s.

(** [s.split()]: the maximal runs of non-space characters.  [cur] is the
    run being read, reversed. *)
Fixpoint split_ws_aux (cur : string) (s : string) : list string :=
  match s with
  | EmptyString =>
      match cur with EmptyString => [] | _ => [String.rev cur] end
  | String a s' =>
      if isspace_char a then
        match cur with
        | EmptyString => split_ws_aux EmptyString s'
        | _ => String.rev cur :: split_ws_aux EmptyString s'
        end
      else split_ws_aux (String a cur) s'
  end.

Definition split_ws (s : string) : list string := split_ws_aux EmptyString s.

(** The decimal digits, for which both [str.isdigit] and [int] agree. *)
Definition is_decimal (c : ascii) : bool := (48 <=? code c) && (code c <=? 57).

(** [str.isdigit] on one character: below 256 the digit characters are
    '0'..'9' and the superscripts U+00B2, U+00B3, U+00B9. *)
Definition isdigit_char (c : ascii) : bool :=
  is_decimal c || (code c =? 178) || (code c =? 179) || (code c =? 185).

Fixpoint all_chars (p : ascii -> bool) (s : string) : bool :=
  match s with
  | EmptyString => true
  | String a s' => p a && all_chars p s'
  end.

(** [s.isdigit()]: non-empty and every character a digit character. *)
Definition isdigit (s : string) : bool :=
  match s with
  | EmptyString => false
  | _ => all_chars isdigit_char s
  end.

Fixpoint int_digits (acc : Z) (s : string) : Z :=
  match s with
  | EmptyString => acc
  | String a s' => int_digits (10 * acc + Z.of_nat (code a - 48)) s'
  end.

(** The default of [sys.get_int_max_str_digits()]. *)
Definition int_max_str_digits : nat := 4300.

(** [int(s)] on a string for which [isdigit] holds: [None] is
    [ValueError], raised on a superscript digit and on more than
    [int_max_str_digits] digits. *)
Definition int (s : string) : option Z :=
  match s with
  | EmptyString => None
  | _ =>
      if all_chars is_decimal s && (String.length s <=? int_max_str_digits)
      then Some (int_digits 0 s)
      else None
  end.

End Py.

(** ** [urllib.parse]: [urlsplit], [urlparse], [urlunparse], [urljoin] *)

Module Urllib.

Record ParseResult := mkParseResult {
  scheme : string;
  netloc : string;
  path : string;
  params : string;
  query : string;
  fragment : string
}.

Definition uses_relative : list string :=
  [EmptyString; "ftp"; "http"; "gopher"; "nntp"; "imap"; "wais"; "file"; "https";
   "shttp"; "mms"; "prospero"; "rtsp"; "rtspu"; "sftp"; "svn"; "svn+ssh";
   "ws"; "wss"].

Definition uses_netloc : list string :=
  [EmptyString; "ftp"; "http"; "gopher"; "nntp"; "telnet"; "imap"; "wais"; "file";
   "mms"; "https"; "shttp"; "snews"; "prospero"; "rtsp"; "rtspu"; "rsync";
   "svn"; "svn+ssh"; "sftp"; "nfs"; "git"; "git+ssh"; "ws"; "wss"].

Definition uses_params : list string :=
  [EmptyString; "ftp"; "hdl"; "prospero"; "http"; "imap"; "https"; "shttp"; "rtsp";
   "rtspu"; "sip"; "sips"; "mms"; "sftp"; "tel"].

Definition str_in (s : string) (l : list string) : bool :=
  existsb (String.eqb s) l.

(** [c in scheme_chars]: letters, digits, '+', '-', '.'. *)
Definition scheme_char (c : ascii) : bool :=
  let n := Py.code c in
  ((97 <=? n) && (n <=? 122)) || ((65 <=? n) && (n <=? 90))
  || ((48 <=? n) && (n <=? 57)) || (n =? 43) || (n =? 45) || (n =? 46).

Definition ascii_alpha (c : ascii) : bool :=
  let n := Py.code c in
  ((97 <=? n) && (n <=? 122)) || ((65 <=? n) && (n <=? 90)).

(** Membership in [_WHATWG_C0_CONTROL_OR_SPACE] and in
    [_UNSAFE_URL_BYTES_TO_REMOVE]. *)
Definition c0_or_space (c : ascii) : bool := Py.code c <=? 32.
Definition unsafe_byte (c : ascii) : bool :=
  let n := Py.code c in (n =? 9) || (n =? 13) || (n =? 10).

(** The scheme test of [urlsplit]: [url.find(':') > 0], the first
    character an ASCII letter and every character before the colon a
    scheme character.  Returns the lowered scheme and the rest. *)
Definition split_scheme (url : string) : option (string * string) :=
  match Py.partition ":" url with
  | Some (String a pre, rest) =>
      if ascii_alpha a && Py.all_chars scheme_char (String a pre)
      then Some (Py.lower (String a pre), rest)
      else None
  | _ => None
  end.

(** [_splitnetloc(url, 0)] applied after the leading "//": the domain runs
    to the first of '/', '?', '#'. *)
Fixpoint splitnetloc (s : string) : string * string :=
  match s with
  | EmptyString => (EmptyString, EmptyString)
  | String a s' =>
      if Ascii.eqb a "/" || Ascii.eqb a "?" || Ascii.eqb a "#"
      then (EmptyString, s)
      else let '(d, r) := splitnetloc s' in (String a d, r)
  end.

(** [s.rpartition(c)]: around the last occurrence of [c]. *)
Fixpoint rpartition (c : ascii) (s : string) : option (string * string) :=
  match s with
  | EmptyString => None
  | String a s' =>
      match rpartition c s' with
      | Some (l, r) => Some (String a l, r)
      | None => if Ascii.eqb a c then Some (EmptyString, s') else None
      end
  end.

(** [_splitparams(url)], called when ';' occurs in [url]: the parameters
    start at the first ';' of the last path segment. *)
Definition splitparams (url : string) : string * string :=
  match rpartition "/" url with
  | Some (dir, seg) =>
      match Py.partition ";" seg with
      | Some (l, r) => (dir +:+ "/" +:+ l, r)
      | None => (url, EmptyString)
      end
  | None =>
      match Py.partition ";" url with
      | Some (l, r) => (l, r)
      | None => (url, EmptyString)
      end
  end.

Definition nonempty (s : string) : bool :=
  match s with EmptyString => false | _ => true end.

(** [urlunparse((scheme, netloc, url, params, query, fragment))], which
    appends the parameters and calls [urlunsplit]. *)
Definition urlunparse (p : ParseResult) : string :=
  let url := if nonempty (params p) then path p +:+ ";" +:+ params p else path p in
  let url :=
    if nonempty (netloc p)
       || (nonempty (scheme p) && str_in (scheme p) uses_netloc
           && negb (Py.startswith "//" url))
    then
      let url := if nonempty url && negb (Py.startswith "/" url)
                 then "/" +:+ url else url in
      "//" +:+ netloc p +:+ url
    else url in
  let url := if nonempty (scheme p) then scheme p +:+ ":" +:+ url else url in
  let url := if nonempty (query p) then url +:+ "?" +:+ query p else url in
  if nonempty (fragment p) then url +:+ "#" +:+ fragment p else url.

(** [segments[1:-1] = filter(None, segments[1:-1])]. *)
Definition filter_middle (segments : list string) : list string :=
  match segments with
  | [] => []
  | x :: r =>
      match last r with
      | None => [x]
      | Some z => x :: List.filter nonempty (removelast r) ++ [z]
      end
  end.

(** The loop of [urljoin] over the segments: ".." pops (and is ignored on
    an empty list), "." is skipped, anything else is appended. *)
Fixpoint resolve_segments (resolved : list string) (segments : list string)
  : list string :=
  match segments with
  | [] => resolved
  | seg :: rest =>
      if String.eqb seg ".." then resolve_segments (removelast resolved) rest
      else if String.eqb seg "." then resolve_segments resolved rest
      else resolve_segments (resolved ++ [seg]) rest
  end.

Section Parse.

(** [_check_bracketed_netloc] validates a bracketed host as an IPv6 or
    IPvFuture literal with the [ipaddress] module; the development is
    parametric in its verdict ([true]: no [ValueError]). *)
Variable check_bracketed_netloc : string -> bool.

(** [urlsplit(url, scheme)] followed by the parameter split of
    [urlparse]; [None] is [ValueError].  On the code points below 256
    [_checknetloc] never raises (NFKC maps none of them to a
    delimiter). *)
Definition urlparse (url default_scheme : string) : option ParseResult :=
  let url := Py.lstrip_chars c0_or_space url in
  let default_scheme := Py.strip_chars c0_or_space default_scheme in
  let url := Py.filter_chars (fun c => negb (unsafe_byte c)) url in
  let default_scheme :=
    Py.filter_chars (fun c => negb (unsafe_byte c)) default_scheme in
  let '(sch, url) :=
    match split_scheme url with
    | Some (sch, rest) => (sch, rest)
    | None => (default_scheme, url)
    end in
  let '(loc, url) :=
    match url with
    | String "/" (String "/" after) => splitnetloc after
    | _ => (EmptyString, url)
    end in
  let lb := Py.contains_char "[" loc in
  let rb := Py.contains_char "]" loc in
  if (lb && negb rb) || (rb && negb lb) then None
  else if lb && rb && negb (check_bracketed_netloc loc) then None
  else
    let '(url, frag) :=
      match Py.partition "#" url with
      | Some (u, f) => (u, f)
      | None => (url, EmptyString)
      end in
    let '(url, qry) :=
      match Py.partition "?" url with
      | Some (u, q) => (u, q)
      | None => (url, EmptyString)
      end in
    let '(url, prm) :=
      if str_in sch uses_params && Py.contains_char ";" url
      then splitparams url
      else (url, EmptyString) in
    Some (mkParseResult sch loc url prm qry frag).

(** [urljoin(base, url)]; [None] is the [ValueError] of [urlparse]. *)
Definition urljoin (base url : string) : option string :=
  if negb (nonempty base) then Some url
  else if negb (nonempty url) then Some base
  else
    match urlparse base EmptyString with
    | None => None
    | Some b =>
        match urlparse url (scheme b) with
        | None => None
        | Some u =>
            if negb (String.eqb (scheme u) (scheme b))
               || negb (str_in (scheme u) uses_relative)
            then Some url
            else if str_in (scheme u) uses_netloc && nonempty (netloc u)
            then Some (urlunparse u)
            else
              let loc := if str_in (scheme u) uses_netloc
                         then netloc b else netloc u in
              if negb (nonempty (path u)) && negb (nonempty (params u))
              then
                Some (urlunparse
                        (mkParseResult (scheme u) loc (path b) (params b)
                           (if nonempty (query u) then query u else query b)
                           (fragment u)))
              else
                let base_parts := Py.split "/" (path b) in
                let base_parts :=
                  match last base_parts with
                  | Some EmptyString => base_parts
                  | _ => removelast base_parts
                  end in
                let segments :=
                  if Py.startswith "/" (path u)
                  then Py.split "/" (path u)
                  else filter_middle (base_parts ++ Py.split "/" (path u)) in
                let resolved := resolve_segments [] segments in
                let resolved :=
                  match last segments with
                  | Some seg =>
                      if String.eqb seg "." || String.eqb seg ".."
                      then resolved ++ [EmptyString] else resolved
                  | None => resolved
                  end in
                let joined := Py.join "/" resolved in
                Some (urlunparse
                        (mkParseResult (scheme u) loc
                           (if nonempty joined then joined else "/")
                           (params u) (query u) (fragment u)))
        end
    end.

End Parse.

End Urllib.

(** ** Exceptions and Python values *)

Inductive exn :=
| AttributeError
| ValueError
| IndexError
| KeyError (key : string)
| ZeroDivisionError
| NameError (name : string)
| OSError.

Inductive result (A : Type) :=
| Ok (a : A)
| Raise (e : exn).
Arguments Ok {A} a.
Arguments Raise {A} e.

(** The values stored in a metadata dictionary: [str] and [int]. *)
Inductive pyval :=
| PStr (s : string)
| PInt (n : nat).

#[global] Instance pyval_eq_dec : EqDecision pyval.
Proof. solve_decision. Defined.

(** A metadata dictionary, and the attribute dictionary of a graph node. *)
Notation metadata := (gmap string pyval).

(** ** The fetched page

    What the program reads from a [BeautifulSoup] document. *)
Record Soup := mkSoup {
  (** [soup.title]: absent, or a tag whose [.string] is [None] or a string *)
  soup_title : option (option string);
  (** [soup.get_text()] *)
  soup_text : string;
  (** [soup.find('meta', property='article:published_time')]: absent, or a
      tag with or without a [content] attribute *)
  soup_published_time : option (option string);
  (** the [href] of every tag of [soup.find_all("a", href=True)], in order *)
  soup_hrefs : list string
}.

(** The outcome of [requests.get] followed by [raise_for_status]. *)
Inductive Response :=
| Fetched (soup : Soup)
| RequestException.

(** ** Parameters (lines 11-22) *)

Module Params.
Definition domain : string := "visakanv.com".
Definition base_url : string := "https://" +:+ domain +:+ "/".
Definition checkpoint_interval : nat := 50.
Definition max_pages : nat := 10000.
End Params.

(** ** [is_valid_url], [fetch_page_metadata], [fetch_links] (lines 33-108) *)

Section Fetching.

Variable check_bracketed_netloc : string -> bool.
Variable domain : string.

Definition blocked_extensions : list string :=
  [".jpg"; ".jpeg"; ".png"; ".gif"; ".css"; ".js"].

(** Lines 33-44.  The bare [except] turns the [ValueError] of [urlparse]
    into [False]. *)
Definition is_valid_url (url : string) : bool :=
  match Urllib.urlparse check_bracketed_netloc url EmptyString with
  | None => false
  | Some parsed =>
      Urllib.str_in (Urllib.scheme parsed) ["http"; "https"]
      && Py.endswith domain (Urllib.netloc parsed)
      && negb (existsb (fun ext => Py.contains ext (Urllib.path parsed))
                 blocked_extensions)
      && negb (Py.contains_char "#" url)
  end.

(** Lines 61-67, the body of the [try]: the segments are scanned left to
    right and a later match overwrites an earlier one; [Raise] is the
    [ValueError] of [int]. *)
Fixpoint scan_url_parts (url_parts : list string) (pub_date : option string)
  : result (option string) :=
  match url_parts with
  | [] => Ok pub_date
  | part :: rest =>
      if Py.isdigit part && (String.length part =? 4) then
        match rest with
        | next :: _ =>
            if Py.isdigit next then
              match Py.int next with
              | None => Raise ValueError
              | Some month =>
                  if ((1 <=? month) && (month <=? 12))%Z
                  then scan_url_parts rest (Some (part +:+ "-" +:+ next))
                  else scan_url_parts rest pub_date
              end
            else scan_url_parts rest pub_date
        | [] => scan_url_parts rest pub_date
        end
      else scan_url_parts rest pub_date
  end.

(** Lines 46-71.  [soup.title.string.strip()] raises [AttributeError] when
    the title tag has no string. *)
Definition fetch_page_metadata (url : string) (soup : Soup) : result metadata :=
  match soup_title soup with
  | Some None => Raise AttributeError
  | title =>
      let title :=
        match title with
        | Some (Some s) => Py.strip s
        | _ => "No Title"
        end in
      let metadata : metadata :=
        <["word_count" := PInt (length (Py.split_ws (soup_text soup)))]>
          (<["title" := PStr title]> (<["url" := PStr url]> ∅)) in
      match soup_published_time soup with
      | Some date_meta =>
          Ok (<["pub_date" := PStr (default "Unknown" date_meta)]> metadata)
      | None =>
          match scan_url_parts (Py.split "/" url) None with
          | Ok (Some d) => Ok (<["pub_date" := PStr d]> metadata)
          | Ok None => Ok metadata
          | Raise _ => Ok (<["pub_date" := PStr "Unknown"]> metadata)
          end
      end
  end.

(** Line 90-92: the URL rebuilt from the parsed link. *)
Definition clean_url (parsed : Urllib.ParseResult) : string :=
  let clean := Urllib.scheme parsed +:+ "://" +:+ Urllib.netloc parsed
               +:+ Urllib.path parsed in
  if Urllib.nonempty (Urllib.query parsed)
  then clean +:+ "?" +:+ Urllib.query parsed
  else clean.

(** Lines 86-99, one pass of the loop over the anchors: the link the
    anchor contributes, if any.  A [ValueError] skips the anchor. *)
Definition link_of_href (url href : string) : option string :=
  match Urllib.urljoin check_bracketed_netloc url href with
  | None => None
  | Some full_url =>
      match Urllib.urlparse check_bracketed_netloc full_url EmptyString with
      | None => None
      | Some parsed =>
          if is_valid_url (clean_url parsed) then Some (clean_url parsed)
          else None
      end
  end.

Variable requests_get : string -> Response.

(** Lines 73-108. *)
Definition fetch_links (url : string) : gset string * metadata :=
  match requests_get url with
  | RequestException => (∅, ∅)
  | Fetched soup =>
      match fetch_page_metadata url soup with
      | Raise _ => (∅, ∅)
      | Ok metadata =>
          (foldl (fun links href =>
                    match link_of_href url href with
                    | Some clean => {[clean]} ∪ links
                    | None => links
                    end) ∅ (soup_hrefs soup),
           metadata)
      end
  end.

End Fetching.

(** ** [networkx.DiGraph]

    The node-attribute dictionaries [G._node] and the edge set.  No edge of
    the program carries attributes. *)

Record DiGraph := mkDiGraph {
  nodes : gmap string metadata;
  edges : gset (string * string)
}.

Definition empty_graph : DiGraph := mkDiGraph ∅ ∅.

(** [G.add_node(n, **attr)]: a new node gets [attr]; the attribute
    dictionary of an existing node is updated with [attr]. *)
Definition add_node (n : string) (attr : metadata) (g : DiGraph) : DiGraph :=
  mkDiGraph (<[n := attr ∪ default ∅ (nodes g !! n)]> (nodes g)) (edges g).

(** The [if u not in self._succ] of [add_edge]: an endpoint that is not yet
    a node becomes one, with an empty attribute dictionary. *)
Definition ensure_node (n : string) (m : gmap string metadata)
  : gmap string metadata :=
  match m !! n with
  | Some _ => m
  | None => <[n := ∅]> m
  end.

(** [G.add_edge(u, v)]. *)
Definition add_edge (u v : string) (g : DiGraph) : DiGraph :=
  mkDiGraph (ensure_node v (ensure_node u (nodes g))) ({[(u, v)]} ∪ edges g).

(** ** The crawl state (lines 28-31, 199-200)

    The four globals that [save_checkpoint] pickles together. *)

Record CrawlState := mkCrawlState {
  graph : DiGraph;
  visited : gset string;
  queue : list string;
  queued : gset string
}.

(** The process: its crawl state, the content of the checkpoint file and
    the URLs of the progress messages printed so far (line 172). *)
Record World := mkWorld {
  state : CrawlState;
  checkpoint_file : option CrawlState;
  progress : list string
}.

Definition with_state (f : CrawlState -> CrawlState) (w : World) : World :=
  mkWorld (f (state w)) (checkpoint_file w) (progress w).

(** Lines 153-154: [queue.popleft()], which raises [IndexError] on an empty
    queue, and [queued.remove(url)], which raises [KeyError] when the URL is
    not in [queued], the queue being popped already. *)
Definition dequeue (s : CrawlState) : result string * CrawlState :=
  match queue s with
  | [] => (Raise IndexError, s)
  | url :: rest =>
      if decide (url ∈ queued s)
      then (Ok url, mkCrawlState (graph s) (visited s) rest (queued s ∖ {[url]}))
      else (Raise (KeyError url), mkCrawlState (graph s) (visited s) rest (queued s))
  end.

(** Lines 174-175: [visited.add(url)] and [graph.add_node(url, **metadata)]. *)
Definition record_page (url : string) (md : metadata) (s : CrawlState) : CrawlState :=
  mkCrawlState (add_node url md (graph s)) ({[url]} ∪ visited s) (queue s) (queued s).

(** Lines 178-181, the body of the loop over the links. *)
Definition enqueue_link (url link : string) (s : CrawlState) : CrawlState :=
  let g := add_edge url link (graph s) in
  if decide ((link ∉ visited s) ∧ (link ∉ queued s))
  then mkCrawlState g (visited s) (queue s ++ [link]) ({[link]} ∪ queued s)
  else mkCrawlState g (visited s) (queue s) (queued s).

(** Lines 140-144; the messages of [analyze_queue] are not recorded. *)
Definition save_checkpoint (w : World) : World :=
  mkWorld (state w) (Some (state w)) (progress w).

(** ** The loop of [scrape] (lines 146-186) as a machine

    A program point carries the local variables that are live at it. *)

Inductive pc :=
| AtWhile (counter : nat)                         (* line 150 *)
| AtFetch (counter : nat) (url : string)          (* line 160 *)
| AtRecord (counter : nat) (url : string)
    (links : list string) (md : metadata)         (* line 174 *)
| AtLink (counter : nat) (url : string)
    (links : list string)                         (* line 177 *)
| AtCheckpoint (counter : nat)                    (* line 183 *)
| Returned (counter : nat)                        (* line 186 *)
| Raised (e : exn).

Section Driver.

Variable max_pages : nat.
Variable checkpoint_interval : nat.

(** [fetch_links] of line 160 with the web fixed; the list is the
    returned set in the order in which line 177 iterates it. *)
Variable fetcher : string -> list string * metadata.

Definition step (c : pc * World) : pc * World :=
  let '(p, w) := c in
  match p with
  | AtWhile counter =>
      if bool_decide (queue (state w) ≠ []) && (counter <? max_pages) then
        let counter := counter + 1 in
        match dequeue (state w) with
        | (Raise e, s) => (Raised e, with_state (fun _ => s) w)
        | (Ok url, s) =>
            if decide (url ∈ visited s)
            then (AtWhile (counter - 1), with_state (fun _ => s) w)
            else (AtFetch counter url, with_state (fun _ => s) w)
        end
      else (Returned counter, w)
  | AtFetch counter url =>
      let '(links, md) := fetcher url in
      (AtRecord counter url links md,
       mkWorld (state w) (checkpoint_file w) (progress w ++ [url]))
  | AtRecord counter url links md =>
      (AtLink counter url links, with_state (record_page url md) w)
  | AtLink counter url (link :: rest) =>
      (AtLink counter url rest, with_state (enqueue_link url link) w)
  | AtLink counter url [] => (AtCheckpoint counter, w)
  | AtCheckpoint counter =>
      match checkpoint_interval with
      | 0 => (Raised ZeroDivisionError, w)
      | _ =>
          if (counter mod checkpoint_interval) =? 0
          then (AtWhile counter, save_checkpoint w)
          else (AtWhile counter, w)
      end
  | Returned _ | Raised _ => c
  end.

Fixpoint run (n : nat) (c : pc * World) : pc * World :=
  match n with
  | 0 => c
  | S n => run n (step c)
  end.

(** Line 148: [scrape] starts its loop with [counter = len(visited)]. *)
Definition scrape (w : World) : pc * World :=
  (AtWhile (size (visited (state w))), w).

(** ** The main program (lines 188-219) *)

Variable base_url : string.

(** Lines 199-200 with lines 29-31. *)
Definition fresh_state : CrawlState :=
  mkCrawlState empty_graph ∅ [base_url] {[base_url]}.

Inductive exit_status :=
| ExitNormal
| ExitRaised (e : exn).

(** The content of the checkpoint file: the pickle of a crawl state, or a
    content on which [pickle.load] raises.  The empty file that
    [open(checkpoint_file, "wb")] of line 141 leaves behind when line 142
    raises is such a content. *)
Inductive File :=
| Pickled (s : CrawlState)
| Unreadable.

Definition loaded (file : option File) : option CrawlState :=
  match file with
  | Some (Pickled s) => Some s
  | _ => None
  end.

(** What a run of the program leaves behind. *)
Record Process := mkProcess {
  exit : exit_status;
  disk : option File;
  exported : option DiGraph;
  printed : list string
}.

(** The places inside a step of the machine at which the crawl state is
    neither that before the step nor that after it. *)
Inductive moment :=
| BeforeStep        (* between two steps *)
| AfterPopleft      (* line 153 is done, line 154 is not *)
| AfterVisitedAdd   (* line 174 is done, line 175 is not *)
| AfterAddEdge      (* line 178 is done, line 179 is not *)
| AfterAppend.      (* line 180 is done, line 181 is not *)

(** Where [KeyboardInterrupt] reaches the handler of line 210.  The calls
    of the libraries are not divided.  An interrupt that arrives inside
    [is_valid_url] or inside the scan of lines 61-67 is caught by their
    bare [except] and does not reach the handler: it is none of these
    places. *)
Inductive interrupt :=
| BeforeQueue                       (* lines 189-198: [queue] is not bound *)
| BeforeQueued                      (* line 199 is done, line 200 is not *)
| InLoop (steps : nat) (m : moment) (* in [scrape], [steps] steps done *)
| DuringExport.                     (* lines 206-208 *)

(** The crawl state at the moment [m] of the step that [c] is about to
    take; [None] when [scrape] has ended at [c] or when the step does not
    pass that moment. *)
Definition midway (m : moment) (c : pc * World) : option CrawlState :=
  let '(p, w) := c in
  let s := state w in
  match m, p with
  | BeforeStep, (Returned _ | Raised _) => None
  | BeforeStep, _ => Some s
  | AfterPopleft, AtWhile counter =>
      if bool_decide (queue s ≠ []) && (counter <? max_pages) then
        match queue s with
        | url :: rest =>
            Some (mkCrawlState (graph s) (visited s) rest (queued s))
        | [] => None
        end
      else None
  | AfterVisitedAdd, AtRecord _ url _ _ =>
      Some (mkCrawlState (graph s) ({[url]} ∪ visited s) (queue s) (queued s))
  | AfterAddEdge, AtLink _ url (link :: _) =>
      Some (mkCrawlState (add_edge url link (graph s)) (visited s)
              (queue s) (queued s))
  | AfterAppend, AtLink _ url (link :: _) =>
      if decide ((link ∉ visited s) ∧ (link ∉ queued s))
      then Some (mkCrawlState (add_edge url link (graph s)) (visited s)
                   (queue s ++ [link]) (queued s))
      else None
  | _, _ => None
  end.

(** [save_checkpoint] called by a handler while [queue] is not bound:
    line 141 empties the file and line 142 raises [NameError], which leaves
    the handler in place of the error that it handles. *)
Definition unbound_queue : Process :=
  mkProcess (ExitRaised (NameError "queue")) (Some Unreadable) None [].

(** The handlers of lines 210-213 and 215-219 once [queue] is bound: the
    crawl state [s] is saved; the interrupt is not raised again, the error
    is. *)
Definition handler (e : option exn) (s : CrawlState) (out : list string)
  : Process :=
  mkProcess (match e with Some e => ExitRaised e | None => ExitNormal end)
    (Some (Pickled s)) None out.

(** A run of the program.  [disk0] is the checkpoint file found at start,
    [sigint] the place at which [KeyboardInterrupt] arrives, if it does,
    and [export_error] the error that [write_graphml] raises at line 207,
    if it does.  A run that is not interrupted in the loop runs the loop
    for [fuel] steps.  The result is [None] when there is no such run:
    [fuel] steps do not suffice, or the run does not pass the place that
    [sigint] names. *)
Definition main (disk0 : option File) (sigint : option interrupt)
    (export_error : option exn) (fuel : nat) : option Process :=
  match sigint, disk0 with
  | Some BeforeQueue, _ =>
      (* lines 210-212 *)
      Some unbound_queue
  | _, Some Unreadable =>
      (* line 195 raises; lines 215-217 *)
      Some unbound_queue
  | Some BeforeQueued, None =>
      (* lines 199, 210-213: [queued] is the empty set of line 31 *)
      Some (handler None (mkCrawlState empty_graph ∅ [base_url] ∅) [])
  | Some BeforeQueued, Some (Pickled _) => None
  | Some (InLoop steps m), _ =>
      let w0 := mkWorld (default fresh_state (loaded disk0)) (loaded disk0) [] in
      let c := run steps (scrape w0) in
      match midway m c with
      | Some s =>
          (* lines 210-213 *)
          Some (handler None s (progress c.2))
      | None => None
      end
  | _, _ =>
      let w0 := mkWorld (default fresh_state (loaded disk0)) (loaded disk0) [] in
      let '(p, w) := run fuel (scrape w0) in
      match p, sigint, export_error with
      | Returned _, None, None =>
          (* lines 206-208 *)
          Some (mkProcess ExitNormal (Pickled <$> checkpoint_file w)
                  (Some (graph (state w))) (progress w))
      | Returned _, None, Some e =>
          (* lines 207, 215-219 *)
          Some (handler (Some e) (state w) (progress w))
      | Returned _, Some _, _ =>
          (* lines 206-208, 210-213 *)
          Some (handler None (state w) (progress w))
      | Raised e, None, _ =>
          (* lines 215-219 *)
          Some (handler (Some e) (state w) (progress w))
      | _, _, _ => None
      end
  end.

End Driver.

(** The fetcher of the driver for a given web: [fetch_links], the returned
    set being listed by [elements], which stands for the order in which
    line 177 iterates it.  The language does not fix that order; the
    properties of the driver are proved for every list-valued fetcher. *)
Definition fetcher_of (check_bracketed_netloc : string -> bool)
    (domain : string) (requests_get : string -> Response)
  : string -> list string * metadata :=
  fun url =>
    let '(links, md) :=
      fetch_links check_bracketed_netloc domain requests_get url in
    (elements links, md).

(** Lines 64-65 without the test of the value: [part] is a segment of four
    digit characters and [next] a segment of digit characters. *)
Definition year_then_digits (part next : string) : bool :=
  Py.isdigit part && (String.length part =? 4) && Py.isdigit next.

(** Some segment of four digits is followed by a valid month segment: a
    segment of digits whose integer value is between 1 and 12. *)
Fixpoint has_year_month (url_parts : list string) : bool :=
  match url_parts with
  | part :: rest =>
      match rest with
      | next :: _ =>
          year_then_digits part next
          && match Py.int next with
             | Some month => ((1 <=? month) && (month <=? 12))%Z
             | None => false
             end
      | [] => false
      end
      || has_year_month rest
  | [] => false
  end.

(** Some segment of four digits is followed by a segment of digit
    characters on which [int] raises. *)
Fixpoint has_bad_digits (url_parts : list string) : bool :=
  match url_parts with
  | part :: rest =>
      match rest with
      | next :: _ =>
          year_then_digits part next
          && match Py.int next with Some _ => false | None => true end
      | [] => false
      end
      || has_bad_digits rest
  | [] => false
  end.

(** ** Invariants of the crawl state *)

(** The frontier holds no URL twice and [queued] is exactly its set of
    elements. *)
Definition frontier_inv (s : CrawlState) : Prop :=
  NoDup (queue s) ∧ queued s = list_to_set (queue s).

(** No URL of the frontier is visited. *)
Definition disjoint_inv (s : CrawlState) : Prop :=
  ∀ url, url ∈ queue s → url ∉ visited s.

(** The source of every edge is visited, and a node is visited or is the
    target of an edge and has no attributes. *)
Definition graph_inv (s : CrawlState) : Prop :=
  (∀ u v, (u, v) ∈ edges (graph s) → u ∈ visited s)
  ∧ (∀ n attr, nodes (graph s) !! n = Some attr →
       n ∈ visited s ∨ (attr = ∅ ∧ ∃ u, (u, n) ∈ edges (graph s))).

(** The page whose links are being iterated has been recorded. *)
Definition pc_inv (p : pc) (s : CrawlState) : Prop :=
  match p with
  | AtLink _ url _ => url ∈ visited s
  | _ => True
  end.

(** The counter is the number of visited pages, one ahead while the page
    taken from the frontier is not yet recorded. *)
Definition counter_inv (p : pc) (s : CrawlState) : Prop :=
  match p with
  | AtWhile counter | AtLink counter _ _ | AtCheckpoint counter =>
      counter = size (visited s)
  | AtFetch counter url | AtRecord counter url _ _ =>
      counter = S (size (visited s)) ∧ url ∉ visited s
  | Returned _ | Raised _ => True
  end.

(** [scrape] has returned or raised. *)
Definition finished (p : pc) : bool :=
  match p with
  | Returned _ | Raised _ => true
  | _ => false
  end.

(** The fetch of [url] fails inside [fetch_links]: the request raises, or
    the extraction of the metadata does. *)
Definition fetch_fails (requests_get : string -> Response) (url : string) : Prop :=
  match requests_get url with
  | RequestException => True
  | Fetched soup => soup_title soup = Some None
  end.

(** The frontier invariants together: what holds of the fresh state and of
    every state saved at the test of the loop. *)
Definition crawl_inv (s : CrawlState) : Prop :=
  frontier_inv s ∧ disjoint_inv s.

(** ** One pass of the loop body on the crawl state *)

(** The loop of lines 177-181 over all the links of a page. *)
Definition enqueue_links (url : string) (links : list string) (s : CrawlState)
  : CrawlState :=
  foldl (fun s link => enqueue_link url link s) s links.

Section Traversal.

Variable fetcher : string -> list string * metadata.

(** The state after the page [url], the head of the frontier [url :: rest]
    of [s], has been dequeued, recorded and its links enqueued. *)
Definition after_page (url : string) (rest : list string) (s : CrawlState)
  : CrawlState :=
  enqueue_links url (fetcher url).1
    (record_page url (fetcher url).2
       (mkCrawlState (graph s) (visited s) rest (queued s ∖ {[url]}))).

(** ** Breadth-first traversal of the link graph *)

(** The links of [links] that are not in [seen], each once, in order. *)
Fixpoint new_links (seen : gset string) (links : list string) : list string :=
  match links with
  | [] => []
  | link :: rest =>
      if decide (link ∈ seen) then new_links seen rest
      else link :: new_links ({[link]} ∪ seen) rest
  end.

(** Breadth-first traversal by levels, the reference for the order of
    the crawl: a level is followed by the pages that the pages of the
    level link to and that were not seen before, those of an earlier
    page of the level before those of a later one.  At most [depth]
    levels are listed. *)
Fixpoint bfs_levels (depth : nat) (seen : gset string) (level : list string)
  : list string :=
  match depth with
  | 0 => []
  | S depth =>
      match level with
      | [] => []
      | _ =>
          let next :=
            new_links seen (concat (map (fun url => (fetcher url).1) level)) in
          level ++ bfs_levels depth (list_to_set next ∪ seen) next
      end
  end.

(** The first [budget] pages of the breadth-first traversal from [seed];
    [budget] levels hold at least [budget] pages unless the traversal
    ends before. *)
Definition bfs_order (budget : nat) (seed : string) : list string :=
  take budget (bfs_levels budget {[seed]} [seed]).

(** Breadth-first traversal with a queue and a set of seen pages, the
    link between the loop and [bfs_levels]. *)
Fixpoint queue_bfs (budget : nat) (seen : gset string) (q : list string)
  : list string :=
  match budget with
  | 0 => []
  | S budget =>
      match q with
      | [] => []
      | url :: rest =>
          let new := new_links seen (fetcher url).1 in
          url :: queue_bfs budget (list_to_set new ∪ seen) (rest ++ new)
      end
  end.

(** ** Pages within reach of the frontier *)

(** [reach V x z]: a chain of links leads from [x] to [z] through pages
    outside [V] only, [x] and [z] included. *)
Inductive reach (V : gset string) : string → string → Prop :=
| reach_here x : x ∉ V → reach V x x
| reach_link x y z : x ∉ V → y ∈ (fetcher x).1 → reach V y z → reach V x z.

(** [url] is within reach of the frontier through unvisited pages. *)
Definition frontier_reach (s : CrawlState) (url : string) : Prop :=
  ∃ u, u ∈ queue s ∧ reach (visited s) u url.

(** The link graph within reach of the frontier is unbounded: no finite
    list holds all its pages. *)
Definition unbounded_from (s : CrawlState) : Prop :=
  ∀ l : list string, ∃ url, (url ∉ l) ∧ frontier_reach s url.

End Traversal.

(** ** Sample webs *)

Module Samples.

(** A home page with two anchors that carry a fragment. *)
Definition anchor_page : Soup :=
  mkSoup (Some (Some "Home")) "welcome home" None ["#top"; "/about#team"].

Definition anchor_web (url : string) : Response :=
  if String.eqb url Params.base_url then Fetched anchor_page
  else RequestException.

(** A page without any date signal. *)
Definition about_page : Soup :=
  mkSoup (Some (Some "About")) "about this site" None [].

(** An unbounded web: every page links to exactly one page, which is
    new. *)
Definition chain_fetcher (url : string) : list string * metadata :=
  ([url +:+ "a"], ∅).

(** The string of [k] letters "a": the page [k] links down the chain
    from [url] is [url +:+ letters_a k]. *)
Fixpoint letters_a (k : nat) : string :=
  match k with
  | 0 => EmptyString
  | S k => String "a" (letters_a k)
  end.

(** The crawl state that the first run on the chain from "s" saves when
    it is stopped at the test of the loop after its first page. *)
Definition chain_after_one : CrawlState :=
  mkCrawlState
    (add_edge "s" "sa" (add_node "s" ∅ empty_graph))
    {["s"]} ["sa"] {["sa"]}.

(** A web that branches: every page links to two new pages. *)
Definition tree_fetcher (url : string) : list string * metadata :=
  ([url +:+ "a"; url +:+ "b"], ∅).

(** A web of three pages: "s" links to "sa" and "sb", which link
    nowhere. *)
Definition small_fetcher (url : string) : list string * metadata :=
  if String.eqb url "s"
  then (["sa"; "sb"], {["title" := PStr "Seed"]})
  else ([], ∅).

(** A web in which no request succeeds. *)
Definition dead_web (url : string) : Response := RequestException.

End Samples.

(** ** Further invariants of the loop *)

(** The page taken from the frontier has left it and is not visited before
    it is recorded. *)
Definition in_flight_inv (p : pc) (s : CrawlState) : Prop :=
  match p with
  | AtFetch _ url | AtRecord _ url _ _ => (url ∉ queue s) ∧ (url ∉ visited s)
  | _ => True
  end.

(** The returned counter is the number of visited pages. *)
Definition total_inv (p : pc) (s : CrawlState) : Prop :=
  match p with
  | Returned counter => counter = size (visited s)
  | _ => counter_inv p s
  end.

(** The printed pages are visited, but for the page that is printed and
    not recorded yet. *)
Definition progress_inv (p : pc) (w : World) : Prop :=
  NoDup (progress w)
  ∧ match p with
    | AtFetch _ url =>
        (url ∉ visited (state w))
        ∧ ∀ u, u ∈ progress w → u ∈ visited (state w)
    | AtRecord _ url _ _ =>
        (url ∉ visited (state w))
        ∧ ∀ u, u ∈ progress w → u = url ∨ u ∈ visited (state w)
    | _ => ∀ u, u ∈ progress w → u ∈ visited (state w)
    end.

(** The loop of lines 177-178 on the graph alone: an edge from [url] to
    every link. *)
Definition add_edges (url : string) (links : list string) (g : DiGraph)
  : DiGraph :=
  foldl (fun g link => add_edge url link g) g links.

(** The crawl is confined to the URLs that satisfy [P]: the frontier, the
    visited pages, the printed pages, the graph and the local variables of
    the loop hold no other URL. *)
Definition confined (P : string → Prop) (c : pc * World) : Prop :=
  let s := state c.2 in
  (∀ x, x ∈ queue s → P x)
  ∧ (∀ x, x ∈ visited s → P x)
  ∧ (∀ x, x ∈ progress c.2 → P x)
  ∧ (∀ x, is_Some (nodes (graph s) !! x) → P x)
  ∧ (∀ u v, (u, v) ∈ edges (graph s) → P u ∧ P v)
  ∧ match c.1 with
    | AtFetch _ url => P url
    | AtRecord _ url links _ | AtLink _ url links =>
        P url ∧ ∀ l, l ∈ links → P l
    | _ => True
    end.

(** ** The publication dates that a URL offers

    The dates that the scan of lines 61-67 assigns, in the order of the
    assignments: one for every segment of four digits that is followed by
    a valid month segment. *)
Fixpoint year_months (url_parts : list string) : list string :=
  match url_parts with
  | part :: rest =>
      match rest with
      | next :: _ =>
          if year_then_digits part next
             && match Py.int next with
                | Some month => ((1 <=? month) && (month <=? 12))%Z
                | None => false
                end
          then [part +:+ "-" +:+ next]
          else []
      | [] => []
      end
      ++ year_months rest
  | [] => []
  end.

(** ** [analyze_queue] (lines 109-138) *)

(** Lines 121-125: the first segment of the path of [url], the slashes at
    both ends of the path being stripped; [Raise] is the [ValueError] of
    [urlparse]. *)
Definition endpoint_of (check_bracketed_netloc : string → bool) (url : string)
  : result string :=
  match Urllib.urlparse check_bracketed_netloc url EmptyString with
  | None => Raise ValueError
  | Some parsed =>
      let parts :=
        Py.split "/" (Py.strip_chars (Ascii.eqb "/") (Urllib.path parsed)) in
      Ok match parts with
         | part :: _ => part
         | [] => "root"
         end
  end.

(** Line 126, [endpoints[endpoint] = endpoints.get(endpoint, 0) + 1] on a
    dictionary that keeps its keys in the order of their insertion. *)
Fixpoint count_endpoint (endpoint : string) (endpoints : list (string * nat))
  : list (string * nat) :=
  match endpoints with
  | [] => [(endpoint, 1)]
  | (key, count) :: others =>
      if String.eqb key endpoint then (key, count + 1) :: others
      else (key, count) :: count_endpoint endpoint others
  end.

(** Lines 119-126, the loop over the queue. *)
Fixpoint count_endpoints (check_bracketed_netloc : string → bool)
    (queue_list : list string) (endpoints : list (string * nat))
  : result (list (string * nat)) :=
  match queue_list with
  | [] => Ok endpoints
  | url :: rest =>
      match endpoint_of check_bracketed_netloc url with
      | Raise e => Raise e
      | Ok endpoint =>
          count_endpoints check_bracketed_netloc rest
            (count_endpoint endpoint endpoints)
      end
  end.

(** [sorted(items, key=lambda x: x[1], reverse=True)]: by falling count,
    items of equal count in their original order. *)
Fixpoint insert_by_count (item : string * nat) (sorted : list (string * nat))
  : list (string * nat) :=
  match sorted with
  | [] => [item]
  | other :: rest =>
      if other.2 <=? item.2 then item :: sorted
      else other :: insert_by_count item rest
  end.

Definition sorted_by_count (items : list (string * nat)) : list (string * nat) :=
  foldr insert_by_count [] items.

(** What [analyze_queue] prints: the size of the queue, the ten most
    frequent endpoints with their counts, and the first five URLs. *)
Record QueueReport := mkQueueReport {
  total_urls : nat;
  top_endpoints : list (string * nat);
  sample_urls : list string
}.

(** Lines 109-138; [Ok None] is the early return on an empty queue. *)
Definition analyze_queue (check_bracketed_netloc : string → bool)
    (queue : list string) : result (option QueueReport) :=
  match queue with
  | [] => Ok None
  | _ =>
      let queue_list := queue in
      match count_endpoints check_bracketed_netloc queue_list [] with
      | Raise e => Raise e
      | Ok endpoints =>
          let sample_size := min 5 (length queue_list) in
          Ok (Some (mkQueueReport (length queue_list)
                      (take 10 (sorted_by_count endpoints))
                      (take sample_size queue_list)))
      end
  end.

(** The URL [url] is counted under [endpoint]. *)
Definition has_endpoint (check_bracketed_netloc : string → bool)
    (endpoint url : string) : bool :=
  match endpoint_of check_bracketed_netloc url with
  | Ok e => String.eqb e endpoint
  | Raise _ => false
  end.

(** The number of URLs of the queue that are counted under [endpoint]. *)
Definition endpoint_count (check_bracketed_netloc : string → bool)
    (endpoint : string) (queue : list string) : nat :=
  length (filter (fun url =>
                    has_endpoint check_bracketed_netloc endpoint url = true)
            queue).

(** * Properties *)

#[local] Set Default Proof Using "Type".

(** ** Strings *)

Module PyFacts.

Lemma contains_char_app c a b :
  Py.contains_char c (a +:+ b) = Py.contains_char c a || Py.contains_char c b.
Proof.
  induction a as [|x a IH]; simpl; [done|].
  destruct (Ascii.eqb x c); [done|apply IH].
Qed.

Lemma partition_Some c s l r :
  Py.partition c s = Some (l, r) →
  s = l +:+ String c r ∧ Py.contains_char c l = false.
Proof.
  revert l. induction s as [|x s IH]; intros l; simpl; [done|].
  destruct (Ascii.eqb x c) eqn:E.
  - intros [= <- <-]. apply Ascii.eqb_eq in E as ->. done.
  - destruct (Py.partition c s) as [[l' r']|]; [|done].
    intros [= <- <-]. destruct (IH l' eq_refl) as [-> Hl].
    simpl. rewrite E. done.
Qed.

Lemma partition_None c s :
  Py.partition c s = None → Py.contains_char c s = false.
Proof.
  induction s as [|x s IH]; simpl; [done|].
  destruct (Ascii.eqb x c); [done|].
  destruct (Py.partition c s) as [[l r]|]; [done|auto].
Qed.

Lemma rpartition_Some c s l r :
  Urllib.rpartition c s = Some (l, r) → s = l +:+ String c r.
Proof.
  revert l. induction s as [|x s IH]; intros l; simpl; [done|].
  destruct (Urllib.rpartition c s) as [[l' r']|].
  - intros [= <- <-]. simpl. by rewrite (IH l' eq_refl).
  - destruct (Ascii.eqb x c) eqn:E; [|done].
    intros [= <- <-]. apply Ascii.eqb_eq in E as ->. done.
Qed.

(** A piece of a string without [c] is without [c]. *)
Lemma contains_char_pieces c l d r :
  Py.contains_char c (l +:+ String d r) = false →
  Py.contains_char c l = false ∧ Py.contains_char c r = false.
Proof.
  rewrite contains_char_app. simpl.
  destruct (Py.contains_char c l); [done|]. simpl.
  destruct (Ascii.eqb d c); [done|]. done.
Qed.

Lemma splitnetloc_spec s d r :
  Urllib.splitnetloc s = (d, r) →
  s = d +:+ r ∧ Py.contains_char "#" d = false.
Proof.
  revert d. induction s as [|x s IH]; intros d; simpl.
  - by intros [= <- <-].
  - destruct (Ascii.eqb x "/" || Ascii.eqb x "?" || Ascii.eqb x "#") eqn:E.
    + by intros [= <- <-].
    + destruct (Urllib.splitnetloc s) as [d' r'].
      intros [= <- <-]. destruct (IH d' eq_refl) as [-> Hd].
      split; [done|]. simpl.
      destruct (Ascii.eqb x "#"); [|done].
      by rewrite !orb_true_r in E.
Qed.

Lemma scheme_char_lower_not_hash a :
  Urllib.scheme_char a = true → Ascii.eqb (Py.lower_char a) "#" = false.
Proof.
  destruct a as [[] [] [] [] [] [] [] []]; vm_compute; congruence.
Qed.

Lemma lower_scheme_no_hash s :
  Py.all_chars Urllib.scheme_char s = true →
  Py.contains_char "#" (Py.lower s) = false.
Proof.
  induction s as [|x s IH]; simpl; [done|].
  intros [Hx Hs]%andb_true_iff.
  rewrite scheme_char_lower_not_hash; auto.
Qed.

Lemma split_scheme_no_hash url sch rest :
  Urllib.split_scheme url = Some (sch, rest) →
  Py.contains_char "#" sch = false.
Proof.
  unfold Urllib.split_scheme.
  destruct (Py.partition ":" url) as [[[|a pre] r]|]; try done.
  destruct (Urllib.ascii_alpha a && Py.all_chars Urllib.scheme_char (String a pre))
    eqn:E; [|done].
  intros [= <- <-]. apply andb_true_iff in E as [_ E].
  exact (lower_scheme_no_hash (String a pre) E).
Qed.

Lemma splitparams_no_char c url l r :
  Py.contains_char c url = false →
  Urllib.splitparams url = (l, r) →
  Py.contains_char c l = false.
Proof.
  unfold Urllib.splitparams. intros Hc.
  destruct (Urllib.rpartition "/" url) as [[dir seg]|] eqn:E.
  - apply rpartition_Some in E. subst url.
    destruct (Py.partition ";" seg) as [[l' r']|] eqn:E'.
    + intros [= <- <-]. apply partition_Some in E' as [-> _].
      destruct (contains_char_pieces _ _ _ _ Hc) as [Hd Hs].
      apply contains_char_pieces in Hs as [Hl' _].
      rewrite contains_char_app in Hc. rewrite Hd in Hc.
      cbn [orb Py.contains_char] in Hc.
      rewrite !contains_char_app, Hd. cbn [orb Py.contains_char String.append].
      destruct (Ascii.eqb "/" c); [done|]. by rewrite Hl'.
    + by intros [= <- <-].
  - destruct (Py.partition ";" url) as [[l' r']|] eqn:E'.
    + intros [= <- <-]. apply partition_Some in E' as [-> _].
      by apply contains_char_pieces in Hc as [? _].
    + by intros [= <- <-].
Qed.

(** [s.endswith(suf)] is the plain suffix relation on strings. *)
Lemma endswith_spec suf s :
  Py.endswith suf s = true ↔ ∃ pre, s = pre +:+ suf.
Proof.
  induction s as [|x s IH]; cbn [Py.endswith].
  - destruct (String.eqb_spec EmptyString suf) as [<-|Hne].
    + split; [by exists EmptyString|done].
    + split; [discriminate|]. intros [pre Hpre].
      destruct pre; simpl in Hpre; [done|discriminate].
  - destruct (String.eqb_spec (String x s) suf) as [<-|Hne].
    + split; [by exists EmptyString|done].
    + rewrite IH. split.
      * intros [pre ->]. by exists (String x pre).
      * intros [[|y pre] Hpre]; simpl in Hpre; [done|].
        injection Hpre as -> ->. by exists pre.
Qed.

End PyFacts.

(** ** The URL filter *)

Section FetchingFacts.

Variable check_bracketed_netloc : string -> bool.

(** No component that [clean_url] concatenates contains '#': [urlparse]
    cuts the fragment off before it cuts the query and the path. *)
Lemma urlparse_no_hash url p :
  Urllib.urlparse check_bracketed_netloc url EmptyString = Some p →
  Py.contains_char "#" (Urllib.scheme p) = false
  ∧ Py.contains_char "#" (Urllib.netloc p) = false
  ∧ Py.contains_char "#" (Urllib.path p) = false
  ∧ Py.contains_char "#" (Urllib.query p) = false.
Proof.
  unfold Urllib.urlparse. simpl Py.strip_chars. simpl Py.filter_chars at 2.
  set (u0 := Py.filter_chars _ _).
  assert (∃ sch rest,
    match Urllib.split_scheme u0 with
    | Some (sch, rest) => (sch, rest) | None => (EmptyString, u0) end = (sch, rest)
    ∧ Py.contains_char "#" sch = false) as (sch & rest & -> & Hsch).
  { destruct (Urllib.split_scheme u0) as [[sch rest]|] eqn:E.
    - exists sch, rest. split; [done|]. by eapply PyFacts.split_scheme_no_hash.
    - by exists EmptyString, u0. }
  assert (∃ loc u1,
    match rest with
    | String "/" (String "/" after) => Urllib.splitnetloc after
    | _ => (EmptyString, rest) end = (loc, u1)
    ∧ Py.contains_char "#" loc = false) as (loc & u1 & -> & Hloc).
  { destruct rest as [|a rest']; [by eexists _, _|].
    destruct (Ascii.eqb_spec a "/") as [->|Ha].
    - destruct rest' as [|b after]; [by eexists _, _|].
      destruct (Ascii.eqb_spec b "/") as [->|Hb].
      + destruct (Urllib.splitnetloc after) as [d r] eqn:E.
        exists d, r. split; [done|].
        by apply PyFacts.splitnetloc_spec in E as [_ ?].
      + exists EmptyString, (String "/" (String b after)). split; [|done].
        destruct b as [[] [] [] [] [] [] [] []]; done.
    - exists EmptyString, (String a rest'). split; [|done].
      destruct a as [[] [] [] [] [] [] [] []]; done. }
  destruct (_ || _); [done|]. destruct (_ && _); [done|].
  assert (∃ u2 frag,
    match Py.partition "#" u1 with
    | Some (u, f) => (u, f) | None => (u1, EmptyString) end = (u2, frag)
    ∧ Py.contains_char "#" u2 = false) as (u2 & frag & -> & Hu2).
  { destruct (Py.partition "#" u1) as [[u f]|] eqn:E.
    - exists u, f. split; [done|]. by apply PyFacts.partition_Some in E as [_ ?].
    - exists u1, EmptyString. split; [done|]. by apply PyFacts.partition_None. }
  assert (∃ u3 qry,
    match Py.partition "?" u2 with
    | Some (u, q) => (u, q) | None => (u2, EmptyString) end = (u3, qry)
    ∧ Py.contains_char "#" u3 = false
    ∧ Py.contains_char "#" qry = false) as (u3 & qry & -> & Hu3 & Hqry).
  { destruct (Py.partition "?" u2) as [[u q]|] eqn:E.
    - exists u, q. split; [done|]. apply PyFacts.partition_Some in E as [-> _].
      by apply PyFacts.contains_char_pieces in Hu2.
    - by exists u2, EmptyString. }
  destruct (_ && _).
  - destruct (Urllib.splitparams u3) as [l r] eqn:E. intros [= <-]. simpl.
    repeat split; try done. exact (PyFacts.splitparams_no_char _ _ _ _ Hu3 E).
  - by intros [= <-].
Qed.

(** The URL that line 94 passes to [is_valid_url] never contains '#', so
    the fourth test of [is_valid_url] cannot fail there. *)
Lemma clean_url_no_hash url p :
  Urllib.urlparse check_bracketed_netloc url EmptyString = Some p →
  Py.contains_char "#" (clean_url p) = false.
Proof.
  intros (Hs & Hn & Hp & Hq)%urlparse_no_hash. unfold clean_url.
  destruct (Urllib.nonempty _);
    rewrite !PyFacts.contains_char_app, ?Hs, ?Hn, ?Hp, ?Hq; done.
Qed.

End FetchingFacts.

(** ** The domain test of [is_valid_url] *)

(** C10 (as amended).  The domain test is the plain suffix relation on the
    host string, with no dot boundary: every URL that parses, has scheme
    http or https, has no blocked extension in its path, contains no '#'
    and whose host is [pre +:+ domain] for an arbitrary string [pre] is
    accepted by [is_valid_url]. *)
Theorem is_valid_url_suffix_scope
    (chk : string -> bool) (domain url pre : string) (p : Urllib.ParseResult) :
  Urllib.urlparse chk url EmptyString = Some p →
  Urllib.str_in (Urllib.scheme p) ["http"; "https"] = true →
  existsb (fun ext => Py.contains ext (Urllib.path p)) blocked_extensions = false →
  Py.contains_char "#" url = false →
  Urllib.netloc p = pre +:+ domain →
  is_valid_url chk domain url = true.
Proof.
  intros Hp Hs He Hh Hn. unfold is_valid_url. rewrite Hp, Hs, He, Hh.
  assert (Py.endswith domain (Urllib.netloc p) = true) as ->; [|done].
  apply PyFacts.endswith_spec. by exists pre.
Qed.

(** The host "evilvisakanv.com" is accepted for the domain "visakanv.com":
    it is neither the domain nor one of its subdomains. *)
Lemma is_valid_url_suffix_scope_witness :
  is_valid_url (fun _ => true) Params.domain "https://evilvisakanv.com/" = true
  ∧ "evilvisakanv.com" ≠ Params.domain
  ∧ Py.endswith ("." +:+ Params.domain) "evilvisakanv.com" = false.
Proof.
  split; [|split; [discriminate|reflexivity]].
  apply (is_valid_url_suffix_scope (fun _ => true) Params.domain
           "https://evilvisakanv.com/" "evil"
           (Urllib.mkParseResult "https" "evilvisakanv.com" "/"
              EmptyString EmptyString EmptyString));
    reflexivity.
Defined.

(** C10 as stated fails: a host that ends with the domain does not suffice,
    the other three tests of [is_valid_url] still apply. *)
Lemma is_valid_url_suffix_alone_refuted :
  ¬ (∀ (chk : string -> bool) (domain url : string) (p : Urllib.ParseResult),
       Urllib.urlparse chk url EmptyString = Some p →
       Py.endswith domain (Urllib.netloc p) = true →
       is_valid_url chk domain url = true).
Proof.
  intros H.
  specialize (H (fun _ => true) Params.domain "ftp://visakanv.com/"
                (Urllib.mkParseResult "ftp" "visakanv.com" "/"
                   EmptyString EmptyString EmptyString) eq_refl eq_refl).
  vm_compute in H. discriminate.
Qed.

(** Conversely the host of an accepted URL ends with the domain. *)
Lemma is_valid_url_host (chk : string -> bool) (domain url : string) :
  is_valid_url chk domain url = true →
  ∃ p pre, Urllib.urlparse chk url EmptyString = Some p
           ∧ Urllib.netloc p = pre +:+ domain.
Proof.
  unfold is_valid_url.
  destruct (Urllib.urlparse chk url EmptyString) as [p|]; [|done].
  intros H. apply andb_true_iff in H as [H _].
  apply andb_true_iff in H as [H _]. apply andb_true_iff in H as [_ H].
  apply PyFacts.endswith_spec in H as [pre Hpre]. by exists p, pre.
Qed.

(** ** Links that carry a fragment *)

(** C4.  The home page of the sample web has the anchors "#top" and
    "/about#team".  Both raw links contain '#', and both are returned by
    [fetch_links] in their fragment-free form; after the home page is
    processed the link to the about page is in the frontier and both are
    edges of the graph. *)
Theorem fragment_links_pass_the_filter (chk : string -> bool) :
  let home := Params.base_url in
  let about := "https://visakanv.com/about" in
  Py.contains_char "#" "/about#team" = true
  ∧ Py.contains_char "#" "#top" = true
  ∧ link_of_href chk Params.domain home "/about#team" = Some about
  ∧ link_of_href chk Params.domain home "#top" = Some home
  ∧ (fetch_links chk Params.domain Samples.anchor_web home).1 = {[home; about]}
  ∧ ∃ counter w,
      run Params.max_pages Params.checkpoint_interval
        (fetcher_of chk Params.domain Samples.anchor_web) 7
        (scrape (mkWorld (fresh_state home) None [])) = (AtWhile counter, w)
      ∧ queue (state w) = [about]
      ∧ about ∈ queued (state w)
      ∧ edges (graph (state w)) = {[(home, home); (home, about)]}.
Proof.
  cbv zeta. repeat split; try (vm_compute; reflexivity).
  eexists _, _. split; [vm_compute; reflexivity|].
  repeat split; vm_compute; reflexivity.
Qed.

(** ** The publication date *)

Lemma scan_url_parts_no_signal (url_parts : list string) (found : option string) :
  has_year_month url_parts = false →
  has_bad_digits url_parts = false →
  scan_url_parts url_parts found = Ok found.
Proof.
  induction url_parts as [|part rest IH]; simpl; [done|].
  intros [H1 H2]%orb_false_iff [H3 H4]%orb_false_iff.
  destruct rest as [|next rest'].
  { by destruct (Py.isdigit part && (String.length part =? 4)). }
  unfold year_then_digits in H1, H3.
  destruct (Py.isdigit part && (String.length part =? 4)); [|by apply IH].
  destruct (Py.isdigit next); [|by apply IH]. simpl in H1, H3.
  destruct (Py.int next) as [month|]; [|done].
  rewrite H1. by apply IH.
Qed.

(** C7.  For a page without a published-time tag and a URL in which no
    segment of four digits is followed by a valid month segment (and none
    by a digit segment on which [int] raises), the metadata that
    [fetch_page_metadata] returns has no publication date entry at all: the
    sentinel "Unknown" is stored only when the tag lacks its content or
    when the scan of the URL raises. *)
Theorem pub_date_missing_without_signal (url : string) (soup : Soup) :
  soup_published_time soup = None →
  soup_title soup ≠ Some None →
  has_year_month (Py.split "/" url) = false →
  has_bad_digits (Py.split "/" url) = false →
  ∃ md, fetch_page_metadata url soup = Ok md
        ∧ md !! "pub_date" = None
        ∧ md !! "pub_date" ≠ Some (PStr "Unknown").
Proof.
  intros Hmeta Htitle Hscan Hbad. unfold fetch_page_metadata.
  rewrite Hmeta, (scan_url_parts_no_signal _ None Hscan Hbad).
  destruct (soup_title soup) as [[t|]|]; [|done|];
    (eexists; split; [reflexivity|]);
    rewrite !lookup_insert_ne, lookup_empty by done; done.
Qed.

Lemma pub_date_missing_without_signal_witness :
  ∃ md, fetch_page_metadata "https://visakanv.com/about" Samples.about_page = Ok md
        ∧ md !! "pub_date" = None
        ∧ md !! "pub_date" ≠ Some (PStr "Unknown").
Proof.
  apply (pub_date_missing_without_signal "https://visakanv.com/about"
           Samples.about_page);
    [reflexivity|discriminate|reflexivity|reflexivity].
Defined.

(** The sibling paths do store the sentinel. *)
Lemma pub_date_unknown_on_error :
  ∃ md, fetch_page_metadata
          ("https://visakanv.com/2021/" +:+ String (ascii_of_nat 178) EmptyString)
          Samples.about_page = Ok md
        ∧ md !! "pub_date" = Some (PStr "Unknown").
Proof. eexists. split; [reflexivity|]. vm_compute. reflexivity. Qed.

Lemma pub_date_from_url :
  ∃ md, fetch_page_metadata "https://visakanv.com/2021/05/post"
          Samples.about_page = Ok md
        ∧ md !! "pub_date" = Some (PStr "2021-05").
Proof. eexists. split; [reflexivity|]. vm_compute. reflexivity. Qed.

(** ** The operations on the crawl state *)

Lemma dequeue_frontier_inv s r s' :
  frontier_inv s → dequeue s = (r, s') → frontier_inv s'.
Proof.
  intros Hinv. unfold dequeue.
  destruct (queue s) as [|url rest] eqn:E; [by intros [= <- <-]|].
  destruct Hinv as [Hnd Hq]. rewrite E in Hnd, Hq.
  apply NoDup_cons in Hnd as [Hurl Hnd].
  destruct (decide (url ∈ queued s)) as [Hin|Hnin].
  - intros [= <- <-]. split; simpl; [done|].
    rewrite Hq. simpl. apply set_eq. intros x.
    rewrite elem_of_difference, elem_of_union, elem_of_singleton,
      !elem_of_list_to_set.
    split; [intros [[->|?] ?]; done|].
    intros Hx. split; [by right|]. by intros ->.
  - exfalso. apply Hnin. rewrite Hq. simpl. set_solver.
Qed.

Lemma enqueue_link_frontier_inv url link s :
  frontier_inv s → frontier_inv (enqueue_link url link s).
Proof.
  intros [Hnd Hq]. unfold enqueue_link.
  destruct (decide _) as [[Hv Hqd]|_]; [|done].
  split; simpl.
  - apply NoDup_app. split; [done|]. split; [|apply NoDup_singleton].
    intros x Hx ->%list_elem_of_singleton. apply Hqd. rewrite Hq.
    by apply elem_of_list_to_set.
  - rewrite Hq, list_to_set_app_L. simpl. set_solver.
Qed.

Lemma dequeue_graph_visited s r s' :
  dequeue s = (r, s') → graph s' = graph s ∧ visited s' = visited s.
Proof.
  unfold dequeue. destruct (queue s) as [|url rest]; [by intros [= <- <-]|].
  destruct (decide _); by intros [= <- <-].
Qed.

Lemma ensure_node_lookup k m n attr :
  ensure_node k m !! n = Some attr →
  m !! n = Some attr ∨ (n = k ∧ attr = ∅ ∧ m !! k = None).
Proof.
  unfold ensure_node. destruct (m !! k) eqn:E; [by left|].
  destruct (decide (k = n)) as [->|Hne].
  - rewrite lookup_insert_eq. intros [= <-]. by right.
  - rewrite lookup_insert_ne by done. by left.
Qed.

Lemma record_page_graph_inv url md s :
  graph_inv s → graph_inv (record_page url md s).
Proof.
  intros [He Hn]. split; simpl.
  - intros u v Huv. apply elem_of_union_r. by eapply He.
  - intros n attr. destruct (decide (url = n)) as [->|Hne].
    + intros _. left. set_solver.
    + rewrite lookup_insert_ne by done. intros Hl.
      destruct (Hn _ _ Hl) as [?|?]; [left; set_solver|by right].
Qed.

Lemma add_edge_graph_inv url link g (V : gset string) :
  url ∈ V →
  (∀ u v, (u, v) ∈ edges g → u ∈ V) →
  (∀ n attr, nodes g !! n = Some attr →
     n ∈ V ∨ (attr = ∅ ∧ ∃ u, (u, n) ∈ edges g)) →
  (∀ u v, (u, v) ∈ edges (add_edge url link g) → u ∈ V)
  ∧ (∀ n attr, nodes (add_edge url link g) !! n = Some attr →
       n ∈ V ∨ (attr = ∅ ∧ ∃ u, (u, n) ∈ edges (add_edge url link g))).
Proof.
  intros Hurl He Hn. split; simpl.
  - intros u v [Huv|Huv]%elem_of_union; [|by eapply He].
    apply elem_of_singleton in Huv. by injection Huv as -> ->.
  - intros n attr Hl.
    apply ensure_node_lookup in Hl as [Hl|(-> & -> & _)].
    + apply ensure_node_lookup in Hl as [Hl|(-> & -> & _)]; [|by left].
      destruct (Hn _ _ Hl) as [?|[-> [u Hu]]]; [by left|].
      right. split; [done|]. exists u. set_solver.
    + right. split; [done|]. exists url. set_solver.
Qed.

Lemma enqueue_link_graph_inv url link s :
  url ∈ visited s → graph_inv s → graph_inv (enqueue_link url link s).
Proof.
  intros Hurl [He Hn]. unfold enqueue_link, graph_inv.
  destruct (decide _); simpl; by apply add_edge_graph_inv.
Qed.

Lemma enqueue_link_visited url link s :
  visited (enqueue_link url link s) = visited s.
Proof. unfold enqueue_link. by destruct (decide _). Qed.


(** ** The loop: invariants at every program point *)

Section DriverFacts.

Variable max_pages : nat.
Variable checkpoint_interval : nat.
Variable fetcher : string -> list string * metadata.

Notation step := (step max_pages checkpoint_interval fetcher).
Notation run := (run max_pages checkpoint_interval fetcher).

Lemma run_S n c : run (S n) c = run n (step c).
Proof. done. Qed.

Lemma run_add n m c : run (n + m) c = run m (run n c).
Proof. revert c. induction n as [|n IH]; intros c; simpl; [done|apply IH]. Qed.

(** An invariant of [step] is an invariant of [run]. *)
Lemma run_invariant (P : pc * World → Prop) :
  (∀ c, P c → P (step c)) → ∀ n c, P c → P (run n c).
Proof.
  intros Hstep n. induction n as [|n IH]; intros c Hc; simpl; [done|].
  apply IH, Hstep, Hc.
Qed.

(** *** The frontier and its membership set *)

Lemma step_frontier_inv c :
  frontier_inv (state c.2) → frontier_inv (state (step c).2).
Proof.
  destruct c as [p w]. simpl. intros Hinv.
  destruct p as [counter|counter url|counter url links md
                |counter url [|link rest]|counter|counter|e]; simpl; try done.
  - destruct (bool_decide _ && _); [|done].
    destruct (dequeue (state w)) as [[url|e] s'] eqn:E;
      [destruct (decide _)|]; simpl; by eapply dequeue_frontier_inv.
  - by destruct (fetcher url).
  - by apply enqueue_link_frontier_inv.
  - destruct checkpoint_interval; [done|]. by destruct (_ =? _).
Qed.

(** C1.  From a crawl state in which the frontier is free of duplicates
    and [queued] is its set of elements, the same holds in the state of
    every program point that the loop reaches, whatever the fetcher
    returns: after every dequeue and after every link that is or is not
    enqueued. *)
Theorem frontier_invariant (p : pc) (w : World) (n : nat) :
  frontier_inv (state w) →
  frontier_inv (state (run n (p, w)).2).
Proof.
  intros H.
  apply (run_invariant (fun c => frontier_inv (state c.2))); [|done].
  apply step_frontier_inv.
Qed.

(** *** The graph *)

Lemma step_graph_inv c :
  graph_inv (state c.2) ∧ pc_inv c.1 (state c.2) →
  graph_inv (state (step c).2) ∧ pc_inv (step c).1 (state (step c).2).
Proof.
  destruct c as [p w]. simpl. intros [Hinv Hpc].
  destruct p as [counter|counter url|counter url links md
                |counter url [|link rest]|counter|counter|e]; simpl; try done.
  - destruct (bool_decide _ && _); [|done].
    destruct (dequeue (state w)) as [r s'] eqn:E.
    apply dequeue_graph_visited in E as [Hg Hv].
    assert (graph_inv s') as Hs'.
    { destruct Hinv as [He Hn]. unfold graph_inv. by rewrite Hg, Hv. }
    destruct r as [url|e]; [destruct (decide _)|]; done.
  - by destruct (fetcher url).
  - split; [by apply record_page_graph_inv|]. simpl. set_solver.
  - split; [by apply enqueue_link_graph_inv|].
    simpl in *. by rewrite enqueue_link_visited.
  - destruct checkpoint_interval; [done|]. by destruct (_ =? _).
Qed.

(** C5 (as amended).  Nodes are created by line 175 for the page being
    processed and by [add_edge] of line 178 for the target of a link.  From
    a state in which the source of every edge is visited and every node is
    visited or is the target of an edge and has no attributes, the same
    holds at every program point that [scrape] reaches. *)
Theorem graph_invariant (w : World) (n : nat) :
  graph_inv (state w) →
  graph_inv (state (run n (scrape w)).2).
Proof.
  intros H.
  apply (run_invariant
           (fun c => graph_inv (state c.2) ∧ pc_inv c.1 (state c.2)));
    [apply step_graph_inv|done].
Qed.

End DriverFacts.

(** The fresh state satisfies the graph invariant, which therefore holds
    on the unbounded sample web after the first page is processed. *)
Lemma graph_invariant_witness :
  graph_inv (state (run 10 5 Samples.chain_fetcher 7
                      (scrape (mkWorld (fresh_state Params.base_url) None []))).2).
Proof.
  apply (graph_invariant 10 5 Samples.chain_fetcher
           (mkWorld (fresh_state Params.base_url) None []) 7).
  split; simpl; [set_solver|]. intros n attr. by rewrite lookup_empty.
Defined.

(** C5 as stated fails: once the home page is processed, the page it links
    to is a node of the graph and is not visited. *)
Lemma unvisited_node_exists :
  ¬ (∀ (fetcher : string → list string * metadata) (n : nat) (url : string),
       let c := run 10 5 fetcher n
                  (scrape (mkWorld (fresh_state Params.base_url) None [])) in
       url ∈ dom (nodes (graph (state c.2))) → url ∈ visited (state c.2)).
Proof.
  intros H.
  specialize (H Samples.chain_fetcher 7 "https://visakanv.com/a").
  cbv zeta in H.
  assert ("https://visakanv.com/a" ∈ visited
            (state (run 10 5 Samples.chain_fetcher 7
                      (scrape (mkWorld (fresh_state Params.base_url) None []))).2))
    as Hv.
  { apply H, elem_of_dom. vm_compute. by eexists. }
  vm_compute in Hv. discriminate.
Qed.

(** C1: the fresh state satisfies the invariant, and so does every state
    of the crawl that starts from it. *)
Lemma frontier_invariant_witness :
  frontier_inv (state (run 10 5 Samples.chain_fetcher 7
                         (scrape (mkWorld (fresh_state Params.base_url) None []))).2).
Proof.
  apply (frontier_invariant 10 5 Samples.chain_fetcher
           (AtWhile 0) (mkWorld (fresh_state Params.base_url) None []) 7).
  split; simpl; [apply NoDup_singleton|set_solver].
Defined.


(** ** Fetch failures *)

Lemma fetch_links_failure chk domain requests_get url :
  fetch_fails requests_get url →
  fetch_links chk domain requests_get url = (∅, ∅).
Proof.
  unfold fetch_fails, fetch_links.
  destruct (requests_get url) as [soup|]; [|done].
  unfold fetch_page_metadata. by intros ->.
Qed.

(** C6.  When the fetch of the dequeued URL fails, [fetch_links] returns
    the empty set and the empty dictionary; the URL is printed, added to
    [visited] and made a node to which no attribute is added, so that its
    attribute dictionary is empty when the graph invariant held before; no
    edge is added and the frontier is unchanged; the loop is back at its
    test and has not raised. *)
Theorem failed_fetch_is_recorded
    (max_pages checkpoint_interval : nat) (chk : string → bool)
    (domain : string) (requests_get : string → Response)
    (counter : nat) (url : string) (w : World) :
  fetch_fails requests_get url →
  checkpoint_interval ≠ 0 →
  fetch_links chk domain requests_get url = (∅, ∅)
  ∧ ∃ w',
      run max_pages checkpoint_interval (fetcher_of chk domain requests_get) 4
        (AtFetch counter url, w) = (AtWhile counter, w')
      ∧ state w' = record_page url ∅ (state w)
      ∧ progress w' = progress w ++ [url]
      ∧ url ∈ visited (state w')
      ∧ nodes (graph (state w')) !! url
        = Some (default ∅ (nodes (graph (state w)) !! url))
      ∧ (graph_inv (state w) → url ∉ visited (state w) →
         nodes (graph (state w')) !! url = Some ∅)
      ∧ edges (graph (state w')) = edges (graph (state w))
      ∧ queue (state w') = queue (state w)
      ∧ queued (state w') = queued (state w).
Proof.
  intros Hfail Hint. pose proof (fetch_links_failure chk domain _ _ Hfail) as Hf.
  split; [done|].
  assert (fetcher_of chk domain requests_get url = ([], ∅)) as Hfo.
  { unfold fetcher_of. rewrite Hf. by rewrite elements_empty. }
  cbn [run step]. rewrite Hfo. cbn [run step].
  destruct checkpoint_interval as [|k]; [done|].
  assert (graph_inv (state w) → url ∉ visited (state w) →
          default ∅ (nodes (graph (state w)) !! url) = (∅ : metadata)) as Hattr.
  { intros [_ Hn] Hv. destruct (nodes (graph (state w)) !! url) as [a|] eqn:E;
      [|done]. by destruct (Hn _ _ E) as [?|[-> _]]. }
  destruct (_ =? _); eexists; (split; [reflexivity|]); simpl;
    rewrite lookup_insert_eq, (left_id_L ∅ (∪));
    (split; [done|]); (split; [done|]); (split; [set_solver|]);
    (split; [done|]); (split; [|done]);
    intros Hg Hv; by rewrite Hattr.
Qed.

Lemma failed_fetch_is_recorded_witness :
  ∃ w',
    run Params.max_pages Params.checkpoint_interval
      (fetcher_of (fun _ => true) Params.domain Samples.dead_web) 4
      (AtFetch 1 Params.base_url,
       mkWorld (mkCrawlState empty_graph ∅ [] ∅) None []) = (AtWhile 1, w')
    ∧ Params.base_url ∈ visited (state w')
    ∧ nodes (graph (state w')) !! Params.base_url = Some ∅
    ∧ edges (graph (state w')) = ∅.
Proof.
  destruct (failed_fetch_is_recorded Params.max_pages Params.checkpoint_interval
              (fun _ => true) Params.domain Samples.dead_web 1 Params.base_url
              (mkWorld (mkCrawlState empty_graph ∅ [] ∅) None []) I
              ltac:(discriminate))
    as (_ & w' & Hrun & _ & _ & Hv & Hn & _ & He & _).
  exists w'. split; [exact Hrun|]. split; [exact Hv|]. split; [exact Hn|exact He].
Defined.

(** ** The loop body as one transition *)

(** The links loop appends exactly the new links. *)
Lemma enqueue_links_spec url links s :
  queue (enqueue_links url links s)
  = queue s ++ new_links (visited s ∪ queued s) links
  ∧ queued (enqueue_links url links s)
    = list_to_set (new_links (visited s ∪ queued s) links) ∪ queued s
  ∧ visited (enqueue_links url links s) = visited s.
Proof.
  revert s. induction links as [|link rest IH]; intros s.
  - simpl. rewrite app_nil_r. split; [done|]. split; [set_solver|done].
  - unfold enqueue_links in *. cbn [foldl new_links].
    destruct (IH (enqueue_link url link s)) as (Hq & Hqd & Hv).
    rewrite Hq, Hqd, Hv. unfold enqueue_link.
    destruct (decide ((link ∉ visited s) ∧ (link ∉ queued s))) as [[H1 H2]|Hn];
      simpl.
    + rewrite decide_False by set_solver.
      replace (visited s ∪ ({[link]} ∪ queued s))
        with ({[link]} ∪ (visited s ∪ queued s)) by set_solver.
      rewrite <- app_assoc. simpl. split; [done|]. split; [set_solver|done].
    + rewrite decide_True; [done|].
      apply not_and_l in Hn as [Hn|Hn]; apply dec_stable in Hn; set_solver.
Qed.

Lemma new_links_elem seen links x :
  x ∈ new_links seen links ↔ x ∈ links ∧ x ∉ seen.
Proof.
  revert seen. induction links as [|l rest IH]; intros seen; simpl.
  - set_solver.
  - destruct (decide (l ∈ seen)).
    + rewrite IH. set_solver.
    + rewrite elem_of_cons, IH.
      destruct (decide (x = l)); set_solver.
Qed.

Lemma new_links_NoDup seen links : NoDup (new_links seen links).
Proof.
  revert seen. induction links as [|l rest IH]; intros seen; simpl.
  - constructor.
  - destruct (decide (l ∈ seen)); [done|].
    constructor; [|done]. rewrite new_links_elem. set_solver.
Qed.

Section IterationFacts.

Variable max_pages : nat.
Variable checkpoint_interval : nat.
Variable fetcher : string -> list string * metadata.

Notation run := (run max_pages checkpoint_interval fetcher).
Notation step := (step max_pages checkpoint_interval fetcher).
Notation after_page := (after_page fetcher).

Lemma run_links counter url links w :
  run (length links) (AtLink counter url links, w)
  = (AtLink counter url [], with_state (enqueue_links url links) w).
Proof.
  revert w. induction links as [|link rest IH]; intros w.
  - by destruct w.
  - cbn [length run step]. rewrite IH. by destruct w.
Qed.

(** The state after a page, under the invariants. *)
Lemma after_page_spec url rest s :
  crawl_inv s → queue s = url :: rest →
  let s' := after_page url rest s in
  let new := new_links (visited s ∪ queued s) (fetcher url).1 in
  queue s' = rest ++ new
  ∧ visited s' = {[url]} ∪ visited s
  ∧ visited s' ∪ queued s' = list_to_set new ∪ (visited s ∪ queued s)
  ∧ (url ∉ visited s)
  ∧ crawl_inv s'.
Proof.
  intros [[Hnd Hqd] Hdis] Hq. cbv zeta. unfold after_page.
  rewrite Hq in Hnd, Hqd. apply NoDup_cons in Hnd as [Hurl Hnd].
  assert (url ∉ visited s) as Hv by (apply Hdis; rewrite Hq; set_solver).
  set (s1 := record_page _ _ _).
  assert (visited s1 ∪ queued s1 = visited s ∪ queued s) as Hseen.
  { simpl. rewrite Hqd. simpl. apply set_eq. intros x.
    destruct (decide (x = url)); set_solver. }
  destruct (enqueue_links_spec url (fetcher url).1 s1) as (Eq & Eqd & Ev).
  rewrite Hseen in Eq, Eqd. rewrite Eq, Eqd, Ev. simpl.
  split; [done|]. split; [done|]. split.
  { rewrite Hqd. simpl. apply set_eq. intros x.
    destruct (decide (x = url)); set_solver. }
  split; [done|].
  assert (∀ x, x ∈ rest → (x ∉ visited s) ∧ x ≠ url) as Hrest.
  { intros x Hx. split; [apply Hdis; rewrite Hq; set_solver|by intros ->]. }
  split; [split|].
  - rewrite Eq. simpl. apply NoDup_app. split; [done|].
    split; [|apply new_links_NoDup].
    intros x Hx [_ Hnew]%new_links_elem. apply Hnew.
    rewrite Hqd. simpl. set_solver.
  - rewrite Eq, Eqd. simpl. rewrite list_to_set_app_L, Hqd. simpl.
    apply set_eq. intros x. destruct (decide (x = url)) as [->|]; [|set_solver].
    split; [|set_solver]. intros [Hx|Hx]%elem_of_union; [|set_solver].
    apply elem_of_list_to_set, new_links_elem in Hx. set_solver.
  - intros x. rewrite Eq, Ev. simpl.
    intros [Hx|Hx]%elem_of_app.
    + destruct (Hrest _ Hx). set_solver.
    + apply new_links_elem in Hx as [_ Hx]. rewrite Hqd in Hx. simpl in Hx.
      set_solver.
Qed.

(** One pass of the loop: a page is taken from a non-empty frontier and
    the loop is back at its test after [5 + length links] steps. *)
Lemma run_iteration counter w url rest :
  crawl_inv (state w) → queue (state w) = url :: rest →
  counter < max_pages → checkpoint_interval ≠ 0 →
  ∃ w',
    run (5 + length (fetcher url).1) (AtWhile counter, w)
    = (AtWhile (S counter), w')
    ∧ state w' = after_page url rest (state w)
    ∧ progress w' = progress w ++ [url].
Proof.
  intros Hinv Hq Hlt Hint.
  destruct (after_page_spec _ _ _ Hinv Hq) as (_ & _ & _ & Hv & _).
  destruct Hinv as [[Hnd Hqd] Hdis].
  replace (5 + length (fetcher url).1)
    with (3 + (length (fetcher url).1 + 2)) by lia.
  rewrite run_add. cbn [run step].
  rewrite bool_decide_true by (by rewrite Hq).
  apply Nat.ltb_lt in Hlt as ->. cbn [andb].
  unfold dequeue. rewrite Hq.
  rewrite decide_True by (rewrite Hqd, Hq; set_solver).
  cbn [with_state visited]. rewrite decide_False by done.
  unfold after_page.
  destruct (fetcher url) as [links md] eqn:Ef. cbn [fst snd length].
  rewrite run_add. unfold step at 2. rewrite Ef. unfold step at 1.
  rewrite run_links. cbn [run step]. rewrite !Nat.add_1_r.
  destruct checkpoint_interval as [|k]; [done|].
  destruct (_ =? _); eexists; (split; [reflexivity|]); by destruct w.
Qed.

End IterationFacts.

(** ** The order of the crawl *)

Lemma new_links_app seen a b :
  new_links seen (a ++ b)
  = new_links seen a ++ new_links (list_to_set (new_links seen a) ∪ seen) b.
Proof.
  revert seen. induction a as [|l a IH]; intros seen; simpl.
  - by rewrite (left_id_L ∅ (∪)).
  - destruct (decide (l ∈ seen)); [apply IH|].
    rewrite IH. simpl. do 2 f_equal. f_equal. set_solver.
Qed.

Section OrderFacts.

Variable max_pages : nat.
Variable checkpoint_interval : nat.
Variable fetcher : string -> list string * metadata.

Notation run := (run max_pages checkpoint_interval fetcher).
Notation step := (step max_pages checkpoint_interval fetcher).
Notation after_page := (after_page fetcher).
Notation queue_bfs := (queue_bfs fetcher).
Notation bfs_levels := (bfs_levels fetcher).

(** The queue traversal works a whole level off before it reaches the
    pages found meanwhile, which it has appended in the order of their
    discovery. *)
Lemma queue_bfs_level cur nxt seen n :
  let new := new_links seen (concat (map (fun url => (fetcher url).1) cur)) in
  queue_bfs n seen (cur ++ nxt)
  = take n cur ++ queue_bfs (n - length cur) (list_to_set new ∪ seen) (nxt ++ new).
Proof.
  cbv zeta. revert nxt seen n.
  induction cur as [|u cur IH]; intros nxt seen n.
  - simpl. by rewrite take_nil, Nat.sub_0_r, (left_id_L ∅ (∪)), app_nil_r.
  - destruct n as [|n]; [done|]. cbn [queue_bfs app map concat take length].
    rewrite <- app_assoc, IH, new_links_app, Nat.sub_succ.
    rewrite list_to_set_app_L, <- !app_assoc. simpl. do 2 f_equal.
    f_equal. set_solver.
Qed.

Lemma queue_bfs_levels depth n seen level :
  n ≤ depth → queue_bfs n seen level = take n (bfs_levels depth seen level).
Proof.
  revert n seen level. induction depth as [|depth IH]; intros n seen level Hn.
  - replace n with 0 by lia. done.
  - destruct level as [|u level].
    { simpl. rewrite take_nil. by destruct n. }
    cbn [bfs_levels].
    rewrite <- (app_nil_r (u :: level)) at 1.
    rewrite queue_bfs_level, take_app. f_equal. simpl app.
    apply IH. simpl. lia.
Qed.

(** The loop prints the pages in the order of the queue traversal. *)
Lemma run_queue_bfs k counter w :
  crawl_inv (state w) → counter + k = max_pages → checkpoint_interval ≠ 0 →
  let order :=
    queue_bfs k (visited (state w) ∪ queued (state w)) (queue (state w)) in
  ∃ n w',
    run n (AtWhile counter, w) = (Returned (counter + length order), w')
    ∧ progress w' = progress w ++ order
    ∧ visited (state w') = list_to_set order ∪ visited (state w)
    ∧ crawl_inv (state w').
Proof.
  cbv zeta. revert counter w.
  induction k as [|k IH]; intros counter w Hinv Hk Hint.
  - exists 1, w. cbn [run step].
    replace (counter <? max_pages) with false
      by (symmetry; apply Nat.ltb_ge; lia).
    rewrite andb_false_r, Nat.add_0_r, app_nil_r. simpl.
    split; [done|]. split; [done|]. split; [set_solver|done].
  - destruct (queue (state w)) as [|url rest] eqn:Hq.
    + exists 1, w. cbn [run step]. rewrite Hq. simpl.
      rewrite Nat.add_0_r, app_nil_r.
      split; [done|]. split; [done|]. split; [set_solver|done].
    + destruct (run_iteration max_pages checkpoint_interval fetcher
                  counter w url rest Hinv Hq ltac:(lia) Hint)
        as (w1 & Hrun & Hs1 & Hp1).
      destruct (after_page_spec fetcher url rest (state w) Hinv Hq)
        as (Hq1 & Hv1 & Hseen1 & _ & Hinv1).
      rewrite <- Hs1 in Hq1, Hv1, Hseen1, Hinv1.
      destruct (IH (S counter) w1 Hinv1 ltac:(lia) Hint)
        as (n & w' & Hrun' & Hp' & Hv' & Hinv').
      rewrite Hseen1, Hq1 in Hrun', Hp', Hv'.
      exists (5 + length (fetcher url).1 + n), w'.
      rewrite run_add, Hrun, Hrun'. cbn [queue_bfs length].
      split; [do 2 f_equal; lia|]. split.
      { by rewrite Hp', Hp1, <- app_assoc. }
      split; [|done]. rewrite Hv', Hv1. simpl. set_solver.
Qed.

(** C2.  Started on the fresh state, the loop returns, and the pages it
    has processed, in the order in which it printed them and added them
    to [visited], are the first [max_pages] pages of the breadth-first
    traversal of the link graph from the seed, level by level, the pages
    found by an earlier page before those found by a later one. *)
Theorem crawl_order_is_breadth_first (seed : string) :
  checkpoint_interval ≠ 0 →
  ∃ n counter w,
    run n (scrape (mkWorld (fresh_state seed) None []))
    = (Returned counter, w)
    ∧ progress w = bfs_order fetcher max_pages seed
    ∧ visited (state w) = list_to_set (bfs_order fetcher max_pages seed).
Proof.
  intros Hint.
  destruct (run_queue_bfs max_pages 0
              (mkWorld (fresh_state seed) None [])) as (n & w & Hrun & Hp & Hv & _);
    [|lia|done|].
  { split; [split|]; simpl; [apply NoDup_singleton|set_solver|set_solver]. }
  simpl in Hrun, Hp, Hv.
  rewrite (left_id_L ∅ (∪)) in Hrun, Hp, Hv.
  rewrite (queue_bfs_levels max_pages) in Hrun, Hp, Hv by done.
  eexists n, _, w. unfold bfs_order, scrape. simpl.
  split; [exact Hrun|]. split; [done|].
  rewrite Hv. set_solver.
Qed.

End OrderFacts.

(** On the branching sample web with a budget of seven pages the crawl
    visits the seed, then its two links, then their four links. *)
Lemma crawl_order_is_breadth_first_witness :
  ∃ n counter w,
    run 7 50 Samples.tree_fetcher n
      (scrape (mkWorld (fresh_state "s") None [])) = (Returned counter, w)
    ∧ progress w = ["s"; "sa"; "sb"; "saa"; "sab"; "sba"; "sbb"]
    ∧ visited (state w)
      = list_to_set ["s"; "sa"; "sb"; "saa"; "sab"; "sba"; "sbb"].
Proof.
  destruct (crawl_order_is_breadth_first 7 50 Samples.tree_fetcher "s"
              ltac:(discriminate)) as (n & counter & w & Hrun & Hp & Hv).
  exists n, counter, w. split; [exact Hrun|]. split; [exact Hp|exact Hv].
Defined.

(** ** The page budget *)

Section BudgetFacts.

Variable max_pages : nat.
Variable checkpoint_interval : nat.
Variable fetcher : string -> list string * metadata.

Notation run := (run max_pages checkpoint_interval fetcher).
Notation after_page := (after_page fetcher).
Notation reach := (reach fetcher).
Notation frontier_reach := (frontier_reach fetcher).
Notation unbounded_from := (unbounded_from fetcher).

Lemma reach_start V x z : reach V x z → x ∉ V.
Proof. by destruct 1. Qed.

(** A chain that avoids [V] either ends in [u], or avoids [u] as well, or
    has a tail that starts at a link of [u] and avoids [u]. *)
Lemma reach_split V u x z :
  reach V x z →
  z = u ∨ reach ({[u]} ∪ V) x z
  ∨ ∃ y, y ∈ (fetcher u).1 ∧ reach ({[u]} ∪ V) y z.
Proof.
  induction 1 as [x Hx|x y z Hx Hy Hr IH].
  - destruct (decide (x = u)) as [->|Hne]; [by left|].
    right; left. constructor. set_solver.
  - destruct IH as [->|[IH|IH]]; [by left| |by right; right].
    destruct (decide (x = u)) as [->|Hne].
    + right; right. by exists y.
    + right; left. eapply reach_link; [set_solver|done..].
Qed.

(** Processing the head [u] of the frontier loses [u] from the pages
    within reach and nothing else. *)
Lemma frontier_reach_after u rest s z :
  crawl_inv s → queue s = u :: rest →
  frontier_reach s z →
  z = u ∨ frontier_reach (after_page u rest s) z.
Proof.
  intros Hinv Hq (x & Hx & Hr).
  destruct (after_page_spec fetcher u rest s Hinv Hq)
    as (Hq' & Hv' & Hseen' & Hu & Hinv').
  destruct Hinv as [[Hnd Hqd] Hdis].
  destruct (reach_split _ u _ _ Hr) as [->|[Hr'|(y & Hy & Hr')]]; [by left|..];
    right; unfold frontier_reach; rewrite Hv', Hq'.
  - exists x. split; [|done]. apply reach_start in Hr'.
    rewrite Hq in Hx. set_solver.
  - exists y. split; [|done]. apply reach_start in Hr'.
    destruct (decide (y ∈ queued s)) as [Hin|Hnin].
    + rewrite Hqd, Hq in Hin. set_solver.
    + rewrite elem_of_app, new_links_elem. set_solver.
Qed.

Lemma unbounded_nonempty s : unbounded_from s → queue s ≠ [].
Proof.
  intros H Hq. destruct (H []) as (x & _ & u & Hu & _).
  rewrite Hq in Hu. set_solver.
Qed.

Lemma unbounded_after u rest s :
  crawl_inv s → queue s = u :: rest →
  unbounded_from s → unbounded_from (after_page u rest s).
Proof.
  intros Hinv Hq H l. destruct (H (u :: l)) as (x & Hx & Hr).
  exists x. split; [set_solver|].
  destruct (frontier_reach_after _ _ _ _ Hinv Hq Hr) as [->|?]; [|done].
  set_solver.
Qed.

(** On an unbounded link graph the loop stops on the budget only. *)
Lemma run_unbounded k counter w :
  crawl_inv (state w) → unbounded_from (state w) →
  k = max_pages - counter → checkpoint_interval ≠ 0 →
  ∃ n w',
    run n (AtWhile counter, w) = (Returned (counter + k), w')
    ∧ length (progress w') = length (progress w) + k
    ∧ size (visited (state w')) = size (visited (state w)) + k
    ∧ crawl_inv (state w').
Proof.
  revert counter w. induction k as [|k IH]; intros counter w Hinv Hunb Hk Hint.
  - exists 1, w. cbn [run step].
    replace (counter <? max_pages) with false
      by (symmetry; apply Nat.ltb_ge; lia).
    rewrite andb_false_r, !Nat.add_0_r. done.
  - destruct (queue (state w)) as [|url rest] eqn:Hq;
      [by apply unbounded_nonempty in Hunb|].
    destruct (run_iteration max_pages checkpoint_interval fetcher
                counter w url rest Hinv Hq ltac:(lia) Hint)
      as (w1 & Hrun & Hs1 & Hp1).
    destruct (after_page_spec fetcher url rest (state w) Hinv Hq)
      as (_ & Hv1 & _ & Hu & Hinv1).
    pose proof (unbounded_after _ _ _ Hinv Hq Hunb) as Hunb1.
    rewrite <- Hs1 in Hv1, Hinv1, Hunb1.
    destruct (IH (S counter) w1 Hinv1 Hunb1 ltac:(lia) Hint)
      as (n & w' & Hrun' & Hp' & Hv' & Hinv').
    exists (5 + length (fetcher url).1 + n), w'.
    rewrite run_add, Hrun, Hrun'.
    split; [f_equal; f_equal; lia|].
    split; [rewrite Hp', Hp1, length_app; simpl; lia|].
    split; [|done].
    rewrite Hv', Hv1, size_union, size_singleton by set_solver. lia.
Qed.

(** C3 (as amended).  [scrape] starts its counter at the number of
    visited pages, so the budget bounds the pages visited over all runs
    of a crawl.  From a state saved at the test of the loop, fresh or
    restored, with an unbounded link graph within reach of the frontier,
    the loop returns after it has processed exactly
    [max_pages - len(visited)] pages; on the fresh state this is
    [max_pages]. *)
Theorem budget_bounds_visited_pages (w : World) :
  crawl_inv (state w) → unbounded_from (state w) →
  checkpoint_interval ≠ 0 →
  let before := size (visited (state w)) in
  ∃ n w',
    run n (scrape w) = (Returned (before + (max_pages - before)), w')
    ∧ length (progress w') = length (progress w) + (max_pages - before)
    ∧ size (visited (state w')) = before + (max_pages - before).
Proof.
  intros Hinv Hunb Hint before.
  destruct (run_unbounded (max_pages - before) before w Hinv Hunb eq_refl Hint)
    as (n & w' & Hrun & Hp & Hv & _).
  by exists n, w'.
Qed.

End BudgetFacts.

(** *** The unbounded sample web *)

#[local] Arguments String.append _ _ : simpl nomatch.

Lemma append_letter x t : (x +:+ "a") +:+ t = x +:+ String "a" t.
Proof. induction x as [|c x IH]; simpl; [done|by f_equal]. Qed.

Lemma append_empty x : x +:+ EmptyString = x.
Proof. induction x as [|c x IH]; simpl; [done|by f_equal]. Qed.

Lemma length_append_letters x k :
  String.length (x +:+ Samples.letters_a k) = String.length x + k.
Proof.
  induction x as [|c x IH]; simpl; [|by f_equal].
  induction k as [|k IH]; simpl; [done|by f_equal].
Qed.

Lemma chain_reach V x k :
  (∀ j, x +:+ Samples.letters_a j ∉ V) →
  reach Samples.chain_fetcher V x (x +:+ Samples.letters_a k).
Proof.
  revert x. induction k as [|k IH]; intros x Hx.
  - specialize (Hx 0). simpl in *. rewrite append_empty in *. by constructor.
  - simpl. rewrite <- append_letter.
    apply reach_link with (y := x +:+ "a").
    + specialize (Hx 0). simpl in Hx. by rewrite append_empty in Hx.
    + simpl. set_solver.
    + apply IH. intros j. rewrite append_letter. apply (Hx (S j)).
Qed.

Lemma length_bound (l : list string) :
  ∃ b, ∀ y, y ∈ l → String.length y < b.
Proof.
  induction l as [|x l [b Hb]].
  - exists 0. set_solver.
  - exists (S (String.length x) + b). intros y [->|Hy]%elem_of_cons; [lia|].
    specialize (Hb y Hy). lia.
Qed.

(** The chain web is unbounded from a frontier that holds a page longer
    than every visited one. *)
Lemma chain_unbounded (s : CrawlState) (q : string) :
  q ∈ queue s →
  (∀ v, v ∈ visited s → String.length v < String.length q) →
  unbounded_from Samples.chain_fetcher s.
Proof.
  intros Hq Hv l. destruct (length_bound l) as [b Hb].
  exists (q +:+ Samples.letters_a b). split.
  - intros Hin. specialize (Hb _ Hin). rewrite length_append_letters in Hb. lia.
  - exists q. split; [done|]. apply chain_reach.
    intros j Hin. specialize (Hv _ Hin).
    rewrite length_append_letters in Hv. lia.
Qed.

Lemma chain_after_one_is_saved :
  main 2 50 Samples.chain_fetcher "s" None (Some (InLoop 6 BeforeStep)) None 0
  = Some (mkProcess ExitNormal (Some (Pickled Samples.chain_after_one)) None
            ["s"]).
Proof. vm_compute. reflexivity. Qed.

(** The run resumed on the chain after one page under a budget of five
    pages processes four. *)
Lemma budget_bounds_visited_pages_witness :
  ∃ n w',
    run 5 50 Samples.chain_fetcher n
      (scrape (mkWorld Samples.chain_after_one (Some Samples.chain_after_one) []))
    = (Returned 5, w')
    ∧ length (progress w') = 4
    ∧ size (visited (state w')) = 5.
Proof.
  apply (budget_bounds_visited_pages 5 50 Samples.chain_fetcher
           (mkWorld Samples.chain_after_one (Some Samples.chain_after_one) [])).
  - split; [split|]; simpl; [apply NoDup_singleton|set_solver|].
    intros url ->%list_elem_of_singleton. set_solver.
  - apply (chain_unbounded _ "sa"); simpl; [set_solver|].
    intros v ->%elem_of_singleton. simpl. lia.
  - discriminate.
Defined.

(** C3 as stated fails on a resumed run: with a budget of two pages and one
    page visited before, the run processes one page, although the link
    graph within reach of the frontier is unbounded. *)
Lemma budget_is_not_per_run :
  ¬ (∀ (max_pages checkpoint_interval : nat)
       (fetcher : string → list string * metadata) (w : World),
       crawl_inv (state w) → unbounded_from fetcher (state w) →
       checkpoint_interval ≠ 0 →
       ∀ n counter w',
         run max_pages checkpoint_interval fetcher n (scrape w)
         = (Returned counter, w') →
         length (progress w') = length (progress w) + max_pages).
Proof.
  intros H.
  specialize (H 2 50 Samples.chain_fetcher
                (mkWorld Samples.chain_after_one (Some Samples.chain_after_one) [])).
  assert (crawl_inv Samples.chain_after_one) as Hinv.
  { split; [split|]; simpl; [apply NoDup_singleton|set_solver|].
    intros url ->%list_elem_of_singleton. set_solver. }
  assert (unbounded_from Samples.chain_fetcher Samples.chain_after_one) as Hunb.
  { apply (chain_unbounded _ "sa"); simpl; [set_solver|].
    intros v ->%elem_of_singleton. simpl. lia. }
  pose (c := run 2 50 Samples.chain_fetcher 7
               (scrape (mkWorld Samples.chain_after_one
                          (Some Samples.chain_after_one) []))).
  assert (c = (Returned 2, c.2)) as Hc by (vm_compute; reflexivity).
  specialize (H Hinv Hunb ltac:(discriminate) 7 2 c.2 Hc).
  vm_compute in H. discriminate.
Qed.

(** ** The main program: interruption, errors and resumption *)

Lemma step_finished max_pages checkpoint_interval fetcher c :
  finished c.1 = true → step max_pages checkpoint_interval fetcher c = c.
Proof. destruct c as [[] w]; simpl; done. Qed.

Lemma run_finished max_pages checkpoint_interval fetcher n c :
  finished c.1 = true → run max_pages checkpoint_interval fetcher n c = c.
Proof.
  intros H. induction n as [|n IH]; simpl; [done|].
  by rewrite step_finished.
Qed.

(** Once [scrape] has returned, more steps change nothing: a result found
    with some number of steps is the result with every larger number. *)
Lemma run_returned_stable max_pages checkpoint_interval fetcher n m c k w :
  run max_pages checkpoint_interval fetcher n c = (Returned k, w) →
  n ≤ m →
  run max_pages checkpoint_interval fetcher m c = (Returned k, w).
Proof.
  intros Hrun Hle. replace m with (n + (m - n)) by lia.
  by rewrite run_add, Hrun, run_finished.
Qed.

Section MainFacts.

Variable max_pages : nat.
Variable checkpoint_interval : nat.
Variable fetcher : string -> list string * metadata.
Variable base_url : string.

Notation step := (step max_pages checkpoint_interval fetcher).
Notation run := (run max_pages checkpoint_interval fetcher).

Lemma loaded_pickled (disk0 : option CrawlState) :
  loaded (Pickled <$> disk0) = disk0.
Proof. by destruct disk0. Qed.


(** *** Resumption at the test of the loop *)

Lemma step_counter_inv c :
  counter_inv c.1 (state c.2) → counter_inv (step c).1 (state (step c).2).
Proof.
  destruct c as [p w]. simpl.
  destruct p as [counter|counter url|counter url links md
                |counter url [|link rest]|counter|counter|e]; simpl; try done.
  - intros ->. destruct (bool_decide _ && _); [|done].
    destruct (dequeue (state w)) as [r s'] eqn:E.
    apply dequeue_graph_visited in E as [_ Hv].
    destruct r as [url|e]; [|done].
    destruct (decide _); simpl; rewrite Hv; [lia|].
    split; [lia|]. by rewrite <- Hv.
  - by destruct (fetcher url).
  - intros [-> Hurl]. by rewrite size_union, size_singleton by set_solver.
  - by rewrite enqueue_link_visited.
  - destruct checkpoint_interval; [done|]. by destruct (_ =? _).
Qed.




End MainFacts.



(** C8.  On the web of three pages the uninterrupted run exports the graph
    of the three pages.  The run that is interrupted during the fetch of the
    seed saves a checkpoint from which the seed is gone: it is neither in the
    frontier nor visited.  The run resumed from that checkpoint returns at
    once and exports the empty graph. *)
Theorem interrupted_fetch_loses_the_page :
  let full :=
    add_edge "s" "sb"
      (add_edge "s" "sa" (add_node "s" {["title" := PStr "Seed"]} empty_graph)) in
  let saved := mkCrawlState empty_graph ∅ [] ∅ in
  main 10 50 Samples.small_fetcher "s" None None None 20
  = Some (mkProcess ExitNormal None (Some full) ["s"; "sa"; "sb"])
  ∧ main 10 50 Samples.small_fetcher "s" None (Some (InLoop 1 BeforeStep))
      None 0
    = Some (mkProcess ExitNormal (Some (Pickled saved)) None [])
  ∧ main 10 50 Samples.small_fetcher "s" (Some (Pickled saved)) None None 20
    = Some (mkProcess ExitNormal (Some (Pickled saved)) (Some empty_graph) [])
  ∧ full ≠ empty_graph.
Proof.
  cbv zeta. repeat split; try (vm_compute; reflexivity).
  intros H. apply (f_equal edges) in H. vm_compute in H. discriminate.
Qed.

(** ** More on the loop: what holds at every program point *)

Lemma dequeue_spec s r s' :
  dequeue s = (r, s') →
  match r with
  | Ok url =>
      queue s = url :: queue s' ∧ url ∈ queued s
      ∧ queued s' = queued s ∖ {[url]}
  | Raise IndexError => queue s = [] ∧ s' = s
  | Raise (KeyError url) =>
      queue s = url :: queue s' ∧ (url ∉ queued s) ∧ queued s' = queued s
  | Raise _ => False
  end.
Proof.
  unfold dequeue. destruct (queue s) as [|url rest] eqn:E.
  - by intros [= <- <-].
  - destruct (decide _); by intros [= <- <-].
Qed.

Lemma enqueue_link_disjoint url link s :
  disjoint_inv s → disjoint_inv (enqueue_link url link s).
Proof.
  intros H x. unfold enqueue_link.
  destruct (decide _) as [[Hv Hq]|_]; simpl; [|apply H].
  intros [Hx| ->%list_elem_of_singleton]%elem_of_app; [by apply H|done].
Qed.

Section InvariantFacts.

Variable max_pages : nat.
Variable checkpoint_interval : nat.
Variable fetcher : string -> list string * metadata.

Notation step := (step max_pages checkpoint_interval fetcher).
Notation run := (run max_pages checkpoint_interval fetcher).

Lemma step_crawl_inv c :
  crawl_inv (state c.2) ∧ in_flight_inv c.1 (state c.2) →
  crawl_inv (state (step c).2) ∧ in_flight_inv (step c).1 (state (step c).2).
Proof.
  destruct c as [p w]. simpl. intros [[Hf Hd] Hp].
  destruct p as [counter|counter url|counter url links md
                |counter url [|link rest]|counter|counter|e]; simpl; try done.
  - destruct (bool_decide _ && _); [|done].
    destruct (dequeue (state w)) as [r s'] eqn:E.
    pose proof (dequeue_frontier_inv _ _ _ Hf E) as Hf'.
    pose proof (dequeue_graph_visited _ _ _ E) as [_ Hv].
    apply dequeue_spec in E.
    assert (disjoint_inv s') as Hd'.
    { intros x Hx. rewrite Hv. apply Hd. destruct r as [url|e].
      - destruct E as (-> & _). set_solver.
      - destruct e; try done.
        + by destruct E as [_ <-].
        + destruct E as (-> & _). set_solver. }
    destruct r as [url|e]; [|done].
    destruct (decide _) as [Hin|Hnin]; simpl; [done|].
    split; [done|]. split; [|done].
    destruct E as (Hq & _). destruct Hf as [Hnd _]. rewrite Hq in Hnd.
    by apply NoDup_cons in Hnd as [? _].
  - by destruct (fetcher url).
  - destruct Hp as [Hq Hv]. split; [split; [done|]|done].
    intros x Hx. simpl in *. set_solver.
  - split; [|done]. split;
      [by apply enqueue_link_frontier_inv|by apply enqueue_link_disjoint].
  - destruct checkpoint_interval; [done|]. by destruct (_ =? _).
Qed.

(** X1.  From a crawl state that satisfies the frontier invariants (the
    frontier is free of duplicates, [queued] is its set of elements, and no
    URL of the frontier is visited), [scrape] keeps them between any two of
    its statements, with two exceptions.  They hold at every point of the
    machine, and between lines 174 and 175 and between lines 178 and 179.
    Between lines 153 and 154 [queued] still holds the URL that has left
    the frontier, and between lines 180 and 181 it does not hold yet the
    link that the frontier has received: a checkpoint written there by the
    handler of an interrupt is not well formed. *)
Theorem crawl_invariant (w : World) (n : nat) :
  crawl_inv (state w) →
  crawl_inv (state (run n (scrape w)).2)
  ∧ ∀ (m : moment) (s : CrawlState),
      midway max_pages m (run n (scrape w)) = Some s →
      match m with
      | BeforeStep | AfterVisitedAdd | AfterAddEdge => crawl_inv s
      | AfterPopleft =>
          NoDup (queue s) ∧ disjoint_inv s
          ∧ ∃ url, (url ∉ queue s)
                   ∧ queued s = {[url]} ∪ list_to_set (queue s)
      | AfterAppend =>
          NoDup (queue s) ∧ disjoint_inv s
          ∧ ∃ q link, queue s = q ++ [link] ∧ (link ∉ q)
                      ∧ queued s = list_to_set q
      end.
Proof.
  intros H.
  assert (crawl_inv (state (run n (scrape w)).2)
          ∧ in_flight_inv (run n (scrape w)).1 (state (run n (scrape w)).2))
    as [[[Hnd Hqd] Hd] Hp].
  { apply (run_invariant max_pages checkpoint_interval fetcher
             (fun c => crawl_inv (state c.2) ∧ in_flight_inv c.1 (state c.2)));
      [apply step_crawl_inv|done]. }
  split; [done|]. intros m s.
  destruct (run n (scrape w)) as [p w']. simpl in Hnd, Hqd, Hd, Hp.
  unfold midway.
  destruct m, p as [counter|counter url|counter url links md
                   |counter url [|link rest]|counter|counter|e];
    try done; try (by intros [= <-]).
  - destruct (bool_decide _ && _); [|done].
    destruct (queue (state w')) as [|url rest] eqn:Eq; [done|].
    intros [= <-]. simpl. apply NoDup_cons in Hnd as [Hu Hnd].
    split_and!; [done| |].
    + intros x Hx. apply (Hd x). rewrite Eq. simpl in Hx. set_solver.
    + exists url. split; [done|]. by rewrite Hqd.
  - intros [= <-]. destruct Hp as [Hq Hv].
    split; [done|]. intros x Hx. simpl in *.
    assert (x ≠ url) by (by intros ->). specialize (Hd x Hx). set_solver.
  - destruct (decide _) as [[Hv Hq]|]; [|done].
    intros [= <-]. simpl.
    assert (link ∉ queue (state w')) as Hl by (rewrite Hqd in Hq; set_solver).
    split_and!.
    + apply NoDup_app. split_and!; [done| |apply NoDup_singleton].
      intros x Hx ->%list_elem_of_singleton. done.
    + intros x [Hx| ->%list_elem_of_singleton]%elem_of_app; [by apply Hd|done].
    + by exists (queue (state w')), link.
Qed.

End InvariantFacts.

Lemma crawl_invariant_witness :
  let c := run 10 5 Samples.tree_fetcher 20
             (scrape (mkWorld (fresh_state "s") None [])) in
  crawl_inv (state c.2)
  ∧ ∀ (m : moment) (s : CrawlState),
      midway 10 m c = Some s →
      match m with
      | BeforeStep | AfterVisitedAdd | AfterAddEdge => crawl_inv s
      | AfterPopleft =>
          NoDup (queue s) ∧ disjoint_inv s
          ∧ ∃ url, (url ∉ queue s)
                   ∧ queued s = {[url]} ∪ list_to_set (queue s)
      | AfterAppend =>
          NoDup (queue s) ∧ disjoint_inv s
          ∧ ∃ q link, queue s = q ++ [link] ∧ (link ∉ q)
                      ∧ queued s = list_to_set q
      end.
Proof.
  apply (crawl_invariant 10 5 Samples.tree_fetcher
           (mkWorld (fresh_state "s") None []) 20).
  split; [split|]; simpl; [apply NoDup_singleton|set_solver|set_solver].
Defined.

Section InvariantFacts2.

Variable max_pages : nat.
Variable checkpoint_interval : nat.
Variable fetcher : string -> list string * metadata.

Notation step := (step max_pages checkpoint_interval fetcher).
Notation run := (run max_pages checkpoint_interval fetcher).


(** Under the invariants the test of the loop leads to the fetch of the
    head of the frontier. *)
Lemma step_at_while counter w url rest :
  crawl_inv (state w) → queue (state w) = url :: rest →
  counter < max_pages →
  step (AtWhile counter, w)
  = (AtFetch (counter + 1) url,
     with_state (fun _ => mkCrawlState (graph (state w)) (visited (state w))
                            rest (queued (state w) ∖ {[url]})) w).
Proof.
  intros [[Hnd Hqd] Hdis] Hq Hlt. cbn [step].
  rewrite bool_decide_true by (by rewrite Hq).
  apply Nat.ltb_lt in Hlt as ->. cbn [andb].
  unfold dequeue. rewrite Hq.
  rewrite decide_True by (rewrite Hqd, Hq; set_solver).
  cbn [visited]. rewrite decide_False; [done|].
  apply Hdis. rewrite Hq. set_solver.
Qed.

Lemma step_no_raise c :
  checkpoint_interval ≠ 0 →
  (crawl_inv (state c.2) ∧ in_flight_inv c.1 (state c.2))
  ∧ (∀ e, c.1 ≠ Raised e) →
  (crawl_inv (state (step c).2) ∧ in_flight_inv (step c).1 (state (step c).2))
  ∧ (∀ e, (step c).1 ≠ Raised e).
Proof.
  intros Hint [Hinv Hnr]. split; [by apply step_crawl_inv|].
  destruct c as [p w]. cbn [fst snd] in *. destruct Hinv as [Hinv _].
  destruct p as [counter|counter url|counter url links md
                |counter url [|link rest]|counter|counter|e]; try done.
  - destruct (queue (state w)) as [|url rest] eqn:Hq.
    { cbn [step]. rewrite Hq. simpl. done. }
    destruct (decide (counter < max_pages)) as [Hlt|Hge].
    + by rewrite (step_at_while _ _ _ _ Hinv Hq Hlt).
    + cbn [step]. replace (counter <? max_pages) with false
        by (symmetry; apply Nat.ltb_ge; lia).
      by rewrite andb_false_r.
  - cbn [step]. by destruct (fetcher url).
  - cbn [step]. destruct checkpoint_interval; [done|]. by destruct (_ =? _).
Qed.

(** X2.  From a crawl state that satisfies the frontier invariants, with a
    checkpoint interval other than zero, [scrape] never raises: neither the
    [KeyError] of [queued.remove] nor the [IndexError] of [popleft] nor a
    division by zero occurs.  And the already-visited branch of lines
    156-158 is never taken: whenever the loop test succeeds, the head of
    the frontier is fetched next. *)
Theorem no_error_and_no_skip (w : World) (n : nat) :
  crawl_inv (state w) → checkpoint_interval ≠ 0 →
  let c := run n (scrape w) in
  (∀ e, c.1 ≠ Raised e)
  ∧ (∀ counter url rest,
       c.1 = AtWhile counter → queue (state c.2) = url :: rest →
       counter < max_pages →
       (step c).1 = AtFetch (counter + 1) url).
Proof.
  intros Hinv Hint c.
  assert ((crawl_inv (state c.2) ∧ in_flight_inv c.1 (state c.2))
          ∧ (∀ e, c.1 ≠ Raised e)) as [[Hc _] Hnr].
  { apply (run_invariant max_pages checkpoint_interval fetcher
             (fun c => (crawl_inv (state c.2) ∧ in_flight_inv c.1 (state c.2))
                       ∧ (∀ e, c.1 ≠ Raised e)));
      [intros c'; by apply step_no_raise|done]. }
  split; [done|]. intros counter url rest Hp Hq Hlt.
  destruct c as [p w']. cbn [fst snd] in *. subst p.
  by rewrite (step_at_while _ _ _ _ Hc Hq Hlt).
Qed.

Lemma step_total_inv c :
  total_inv c.1 (state c.2) → total_inv (step c).1 (state (step c).2).
Proof.
  destruct c as [p w].
  destruct p as [counter|counter url|counter url links md
                |counter url links|counter|counter|e];
    try apply (step_counter_inv max_pages checkpoint_interval fetcher (_, w));
    try done.
  - simpl. intros ->. destruct (bool_decide _ && _); [|done].
    destruct (dequeue (state w)) as [r s'] eqn:E.
    apply dequeue_graph_visited in E as [_ Hv].
    destruct r as [url|e]; [|done].
    destruct (decide _); simpl; rewrite Hv; [lia|].
    split; [lia|]. by rewrite <- Hv.
  - intros H.
    pose proof (step_counter_inv max_pages checkpoint_interval fetcher
                  (AtFetch counter url, w) H) as H'.
    simpl in *. by destruct (fetcher url).
  - intros H.
    pose proof (step_counter_inv max_pages checkpoint_interval fetcher
                  (AtLink counter url links, w) H) as H'.
    simpl in *. by destruct links.
  - intros H.
    pose proof (step_counter_inv max_pages checkpoint_interval fetcher
                  (AtCheckpoint counter, w) H) as H'.
    simpl in *. destruct checkpoint_interval; [done|]. by destruct (_ =? _).
Qed.

(** X3.  Whatever the crawl state at the start, well formed or not, the
    total that [scrape] returns is the number of visited pages at that
    moment: the counter is taken back on every skipped URL. *)
Theorem returned_total_is_visited_count (w w' : World) (n total : nat) :
  run n (scrape w) = (Returned total, w') →
  total = size (visited (state w')).
Proof.
  intros Hrun.
  pose proof (run_invariant max_pages checkpoint_interval fetcher
                (fun c => total_inv c.1 (state c.2)) step_total_inv
                n (scrape w) eq_refl) as H.
  by rewrite Hrun in H.
Qed.

End InvariantFacts2.

Lemma no_error_and_no_skip_witness :
  let c := run 10 5 Samples.tree_fetcher 8
             (scrape (mkWorld (fresh_state "s") None [])) in
  (∀ e, c.1 ≠ Raised e)
  ∧ (∀ counter url rest,
       c.1 = AtWhile counter → queue (state c.2) = url :: rest →
       counter < 10 →
       (step 10 5 Samples.tree_fetcher c).1 = AtFetch (counter + 1) url).
Proof.
  apply (no_error_and_no_skip 10 5 Samples.tree_fetcher
           (mkWorld (fresh_state "s") None []) 8); [|discriminate].
  split; [split|]; simpl; [apply NoDup_singleton|set_solver|set_solver].
Defined.

Lemma returned_total_is_visited_count_witness :
  3 = size (visited (state (run 3 5 Samples.tree_fetcher 30
                              (scrape (mkWorld (fresh_state "s") None []))).2)).
Proof.
  apply (returned_total_is_visited_count 3 5 Samples.tree_fetcher
           (mkWorld (fresh_state "s") None []) _ 30 3).
  vm_compute. reflexivity.
Defined.

Lemma ensure_node_keeps k (m : gmap string metadata) n attr :
  m !! n = Some attr → ensure_node k m !! n = Some attr.
Proof.
  intros H. unfold ensure_node. destruct (m !! k) eqn:E; [done|].
  rewrite lookup_insert_ne; [done|]. intros ->. congruence.
Qed.

Lemma ensure_node_dom k (m : gmap string metadata) :
  dom m ⊆ dom (ensure_node k m).
Proof.
  unfold ensure_node. destruct (m !! k); [done|]. set_solver.
Qed.

Section GrowthFacts.

Variable max_pages : nat.
Variable checkpoint_interval : nat.
Variable fetcher : string -> list string * metadata.

Notation step := (step max_pages checkpoint_interval fetcher).
Notation run := (run max_pages checkpoint_interval fetcher).

Lemma step_progress_inv c :
  progress_inv c.1 c.2 → progress_inv (step c).1 (step c).2.
Proof.
  destruct c as [p w]. unfold progress_inv. cbn [fst snd]. intros [Hnd Hp].
  destruct p as [counter|counter url|counter url links md
                |counter url [|link rest]|counter|counter|e]; cbn [step];
    try done.
  - destruct (bool_decide _ && _); [|done].
    destruct (dequeue (state w)) as [r s'] eqn:E.
    apply dequeue_graph_visited in E as [_ Hv].
    destruct r as [url|e]; [|simpl; by rewrite Hv].
    destruct (decide _); simpl; rewrite ?Hv; [done|].
    split; [done|]. split; [by rewrite <- Hv|done].
  - destruct (fetcher url) as [links md]. simpl. destruct Hp as [Hurl Hp].
    split.
    + apply NoDup_app. split; [done|]. split; [|apply NoDup_singleton].
      intros x Hx ->%list_elem_of_singleton. by apply Hurl, Hp.
    + split; [done|]. intros u [Hu| ->%list_elem_of_singleton]%elem_of_app;
        [right; by apply Hp|by left].
  - simpl. destruct Hp as [Hurl Hp]. split; [done|].
    intros u Hu. destruct (Hp u Hu) as [->|?]; set_solver.
  - simpl. split; [done|]. intros u Hu. rewrite enqueue_link_visited. by apply Hp.
  - destruct checkpoint_interval; [done|]. by destruct (_ =? _).
Qed.

(** X4.  No page is processed twice: when every page printed so far is
    visited and printed once, the same holds of the pages printed at every
    later program point, whatever the crawl state (the test of line 156
    alone ensures it). *)
Theorem no_page_is_processed_twice (w : World) (n : nat) :
  NoDup (progress w) →
  (∀ u, u ∈ progress w → u ∈ visited (state w)) →
  NoDup (progress (run n (scrape w)).2).
Proof.
  intros Hnd Hp.
  apply (run_invariant max_pages checkpoint_interval fetcher
           (fun c => progress_inv c.1 c.2) step_progress_inv n (scrape w)).
  by split.
Qed.

(** The visited set, the nodes and the edges only grow. *)
Lemma step_grows c :
  visited (state c.2) ⊆ visited (state (step c).2)
  ∧ dom (nodes (graph (state c.2))) ⊆ dom (nodes (graph (state (step c).2)))
  ∧ edges (graph (state c.2)) ⊆ edges (graph (state (step c).2)).
Proof.
  destruct c as [p w]. cbn [fst snd].
  destruct p as [counter|counter url|counter url links md
                |counter url [|link rest]|counter|counter|e]; cbn [step];
    try done.
  - destruct (bool_decide _ && _); [|done].
    destruct (dequeue (state w)) as [r s'] eqn:E.
    apply dequeue_graph_visited in E as [Hg Hv].
    destruct r as [url|e]; [destruct (decide _)|]; simpl; by rewrite Hg, Hv.
  - by destruct (fetcher url).
  - simpl. split; [set_solver|]. split; [|done]. set_solver.
  - simpl. rewrite enqueue_link_visited. split; [done|].
    unfold enqueue_link. destruct (decide _); simpl; (split; [|set_solver]);
      (etrans; [|apply ensure_node_dom]); apply ensure_node_dom.
  - destruct checkpoint_interval; [done|]. by destruct (_ =? _).
Qed.

(** X5.  The loop never forgets: from any program point and crawl state,
    every visited URL stays visited, every node stays a node and every edge
    stays an edge. *)
Theorem crawl_state_only_grows (p : pc) (w : World) (n : nat) :
  visited (state w) ⊆ visited (state (run n (p, w)).2)
  ∧ dom (nodes (graph (state w)))
    ⊆ dom (nodes (graph (state (run n (p, w)).2)))
  ∧ edges (graph (state w)) ⊆ edges (graph (state (run n (p, w)).2)).
Proof.
  revert p w. induction n as [|n IH]; intros p w; [done|].
  rewrite (run_S max_pages checkpoint_interval fetcher).
  destruct (step_grows (p, w)) as (H1 & H2 & H3).
  destruct (step (p, w)) as [p' w']. cbn [fst snd] in *.
  destruct (IH p' w') as (H1' & H2' & H3').
  split; [by etrans|]. split; by etrans.
Qed.

Lemma step_attributes url attr c :
  counter_inv c.1 (state c.2) →
  url ∈ visited (state c.2) →
  nodes (graph (state c.2)) !! url = Some attr →
  nodes (graph (state (step c).2)) !! url = Some attr.
Proof.
  destruct c as [p w]. cbn [fst snd]. intros Hc Hv Hn.
  destruct p as [counter|counter u|counter u links md
                |counter u [|link rest]|counter|counter|e]; cbn [step];
    try done.
  - destruct (bool_decide _ && _); [|done].
    destruct (dequeue (state w)) as [r s'] eqn:E.
    apply dequeue_graph_visited in E as [Hg _].
    destruct r as [u|e]; [destruct (decide _)|]; simpl; by rewrite Hg.
  - by destruct (fetcher u).
  - simpl. destruct Hc as [_ Hu]. rewrite lookup_insert_ne; [done|].
    by intros ->.
  - simpl. unfold enqueue_link.
    destruct (decide _); simpl; by do 2 apply ensure_node_keeps.
  - destruct checkpoint_interval; [done|]. by destruct (_ =? _).
Qed.

(** X6.  The attributes of a processed page are final: once a URL is
    visited and a node, no later step of [scrape] changes its attribute
    dictionary (no page is fetched again, and [add_edge] leaves the
    attributes of existing nodes alone). *)
Theorem recorded_attributes_are_final
    (w : World) (n : nat) (url : string) (attr : metadata) :
  url ∈ visited (state w) →
  nodes (graph (state w)) !! url = Some attr →
  nodes (graph (state (run n (scrape w)).2)) !! url = Some attr.
Proof.
  intros Hv Hn.
  apply (run_invariant max_pages checkpoint_interval fetcher
           (fun c => counter_inv c.1 (state c.2)
                     ∧ url ∈ visited (state c.2)
                     ∧ nodes (graph (state c.2)) !! url = Some attr));
    [|done].
  intros c (Hc & Hvc & Hnc). split; [by apply step_counter_inv|].
  split; [by apply step_grows|by apply step_attributes].
Qed.

End GrowthFacts.

Lemma no_page_is_processed_twice_witness :
  NoDup (progress (run 10 5 Samples.tree_fetcher 40
                     (scrape (mkWorld (fresh_state "s") None []))).2).
Proof.
  apply (no_page_is_processed_twice 10 5 Samples.tree_fetcher
           (mkWorld (fresh_state "s") None []) 40); simpl;
    [constructor|set_solver].
Defined.

Lemma recorded_attributes_are_final_witness :
  nodes (graph (state (run 10 5 Samples.chain_fetcher 30
                         (scrape (mkWorld Samples.chain_after_one None []))).2))
    !! "s" = Some ∅.
Proof.
  apply (recorded_attributes_are_final 10 5 Samples.chain_fetcher
           (mkWorld Samples.chain_after_one None []) 30 "s" ∅);
    [simpl; set_solver|vm_compute; reflexivity].
Defined.

(** ** Termination, checkpoints and resumption *)

Section TerminationFacts.

Variable max_pages : nat.
Variable checkpoint_interval : nat.
Variable fetcher : string -> list string * metadata.

Notation step := (step max_pages checkpoint_interval fetcher).
Notation run := (run max_pages checkpoint_interval fetcher).

(** From the fetch of a page the loop reaches the checkpoint test. *)
Lemma run_page counter url w :
  ∃ w', run (3 + length (fetcher url).1) (AtFetch counter url, w)
        = (AtCheckpoint counter, w').
Proof.
  replace (3 + length (fetcher url).1) with (2 + (length (fetcher url).1 + 1))
    by lia.
  rewrite (run_add max_pages checkpoint_interval fetcher). cbn [run].
  unfold step at 2. destruct (fetcher url) as [links md]. unfold step at 1.
  cbn [fst snd].
  rewrite (run_add max_pages checkpoint_interval fetcher), run_links.
  by eexists.
Qed.

Lemma finished_later n m c :
  finished (run n c).1 = true → finished (run (n + m) c).1 = true.
Proof.
  intros H. rewrite (run_add max_pages checkpoint_interval fetcher).
  by rewrite run_finished.
Qed.

Lemma terminates_from_test k :
  ∀ l counter w,
    max_pages - counter ≤ k → length (queue (state w)) ≤ l →
    ∃ n, finished (run n (AtWhile counter, w)).1 = true.
Proof.
  induction k as [|k IHk].
  - intros l counter w Hk _. exists 1. cbn [run step].
    replace (counter <? max_pages) with false
      by (symmetry; apply Nat.ltb_ge; lia).
    by rewrite andb_false_r.
  - induction l as [|l IHl]; intros counter w Hk Hl.
    + exists 1. cbn [run step].
      destruct (queue (state w)); [done|simpl in Hl; lia].
    + destruct (decide (counter < max_pages)) as [Hlt|Hge];
        [|apply (IHk (length (queue (state w))) counter w); lia].
      destruct (queue (state w)) as [|url rest] eqn:Hq.
      { exists 1. cbn [run step]. by rewrite Hq. }
      assert (∃ c1, step (AtWhile counter, w) = c1
                ∧ (finished c1.1 = true
                   ∨ (∃ w1, c1 = (AtWhile counter, w1)
                        ∧ length (queue (state w1)) ≤ l)
                   ∨ ∃ w1, c1 = (AtFetch (counter + 1) url, w1)))
        as (c1 & Hstep & Hc1).
      { eexists. split; [reflexivity|]. cbn [step].
        rewrite bool_decide_true by (by rewrite Hq).
        apply Nat.ltb_lt in Hlt as ->. cbn [andb].
        unfold dequeue. rewrite Hq.
        destruct (decide (url ∈ queued (state w))); [|by left].
        cbn [visited]. destruct (decide _).
        - right; left. rewrite Nat.add_sub. eexists. split; [done|].
          simpl in *. lia.
        - right; right. by eexists. }
      destruct Hc1 as [Hfin|[(w1 & -> & Hlen)|(w1 & ->)]].
      * exists 1. cbn [run]. by rewrite Hstep.
      * destruct (IHl counter w1 Hk Hlen) as [n Hn].
        exists (S n). cbn [run]. by rewrite Hstep.
      * destruct (run_page (counter + 1) url w1) as [w2 Hpage].
        assert (∃ c3, step (AtCheckpoint (counter + 1), w2) = c3
                  ∧ (finished c3.1 = true
                     ∨ ∃ w3, c3 = (AtWhile (counter + 1), w3)))
          as (c3 & Hstep3 & Hc3).
        { eexists. split; [reflexivity|]. cbn [step].
          destruct checkpoint_interval; [by left|].
          destruct (_ =? _); right; by eexists. }
        destruct Hc3 as [Hfin|(w3 & ->)].
        -- exists (1 + (3 + length (fetcher url).1 + 1)).
           rewrite (run_add max_pages checkpoint_interval fetcher).
           cbn [run]. rewrite Hstep.
           rewrite (run_add max_pages checkpoint_interval fetcher), Hpage.
           cbn [run]. by rewrite Hstep3.
        -- destruct (IHk (length (queue (state w3))) (counter + 1) w3)
             as [n Hn]; [lia|done|].
           exists (1 + (3 + length (fetcher url).1 + (1 + n))).
           rewrite (run_add max_pages checkpoint_interval fetcher).
           cbn [run]. rewrite Hstep.
           rewrite (run_add max_pages checkpoint_interval fetcher), Hpage.
           rewrite (run_add max_pages checkpoint_interval fetcher).
           cbn [run]. by rewrite Hstep3.
Qed.

(** X7.  [scrape] terminates: from every crawl state, well formed or not,
    and for every fetcher, budget and checkpoint interval, the loop returns
    or raises after finitely many steps, and stays there. *)
Theorem scrape_terminates (w : World) :
  ∃ n, ∀ m, n ≤ m → finished (run m (scrape w)).1 = true.
Proof.
  destruct (terminates_from_test (max_pages - size (visited (state w)))
              (length (queue (state w))) (size (visited (state w))) w)
    as [n Hn]; [done..|].
  exists n. intros m Hm. replace m with (n + (m - n)) by lia.
  by apply finished_later.
Qed.



End TerminationFacts.


(** ** The result of a crawl *)

Lemma add_edges_edges url links g a b :
  (a, b) ∈ edges (add_edges url links g)
  ↔ (a, b) ∈ edges g ∨ (a = url ∧ b ∈ links).
Proof.
  revert g. induction links as [|l links IH]; intros g.
  - simpl. set_solver.
  - unfold add_edges in *. cbn [foldl]. rewrite IH. simpl.
    rewrite elem_of_union, elem_of_singleton, elem_of_cons.
    split; [intros [[[= -> ->]|?]|[-> ?]]; auto|].
    intros [?|[-> [->|?]]]; auto.
Qed.

Lemma add_edges_keeps url links g x attr :
  nodes g !! x = Some attr → nodes (add_edges url links g) !! x = Some attr.
Proof.
  revert g. induction links as [|l links IH]; intros g H; [done|].
  unfold add_edges in *. cbn [foldl]. apply IH. simpl.
  by do 2 apply ensure_node_keeps.
Qed.

Lemma add_edges_lookup url links g x attr :
  nodes (add_edges url links g) !! x = Some attr →
  nodes g !! x = Some attr
  ∨ (attr = ∅ ∧ nodes g !! x = None ∧ links ≠ [] ∧ (x = url ∨ x ∈ links)).
Proof.
  revert g. induction links as [|l links IH]; intros g; [by left|].
  unfold add_edges in *. cbn [foldl]. intros H.
  destruct (IH _ H) as [H'|(-> & Hnone & _ & Hx)].
  - simpl in H'.
    apply ensure_node_lookup in H' as [H'|(-> & -> & Hl)].
    + apply ensure_node_lookup in H' as [H'|(-> & -> & Hl)]; [by left|].
      right. split_and!; [done..|by left].
    + right. split_and!; [done| |done|right; set_solver].
      unfold ensure_node in Hl. destruct (nodes g !! url) eqn:E; [done|].
      destruct (decide (url = l)) as [->|Hne]; [done|].
      by rewrite lookup_insert_ne in Hl.
  - right. split_and!; [done| |done|set_solver].
    simpl in Hnone. destruct (nodes g !! x) eqn:E; [|done].
    by rewrite (ensure_node_keeps _ _ _ _ (ensure_node_keeps _ _ _ _ E))
      in Hnone.
Qed.

Lemma add_edges_targets url links g x :
  x ∈ links → is_Some (nodes (add_edges url links g) !! x).
Proof.
  revert g. induction links as [|l links IH]; intros g; [set_solver|].
  unfold add_edges in *. cbn [foldl].
  intros [->|Hx]%elem_of_cons; [|by apply IH].
  assert (is_Some (nodes (add_edge url l g) !! l)) as [a Ha].
  { simpl. unfold ensure_node at 1.
    destruct (ensure_node url (nodes g) !! l) eqn:E; [by rewrite E|].
    by rewrite lookup_insert_eq. }
  exists a. by apply (add_edges_keeps url links).
Qed.

Lemma enqueue_links_graph url links s :
  graph (enqueue_links url links s) = add_edges url links (graph s).
Proof.
  revert s. induction links as [|l links IH]; intros s; [done|].
  unfold enqueue_links, add_edges in *. cbn [foldl]. rewrite IH.
  f_equal. unfold enqueue_link. by destruct (decide _).
Qed.

Lemma returned_unique max_pages checkpoint_interval fetcher n m c a b w1 w2 :
  run max_pages checkpoint_interval fetcher n c = (Returned a, w1) →
  run max_pages checkpoint_interval fetcher m c = (Returned b, w2) →
  a = b ∧ w1 = w2.
Proof.
  intros H1 H2.
  pose proof (run_returned_stable _ _ _ n (n + m) _ _ _ H1 ltac:(lia)) as H1'.
  pose proof (run_returned_stable _ _ _ m (n + m) _ _ _ H2 ltac:(lia)) as H2'.
  rewrite H1' in H2'. by injection H2' as -> ->.
Qed.

Section ResultFacts.

Variable max_pages : nat.
Variable checkpoint_interval : nat.
Variable fetcher : string -> list string * metadata.

Notation step := (step max_pages checkpoint_interval fetcher).
Notation run := (run max_pages checkpoint_interval fetcher).
Notation after_page := (after_page fetcher).
Notation reach := (reach fetcher).
Notation frontier_reach := (frontier_reach fetcher).

(** A property of the crawl state and of the pages processed so far that
    every pass of the loop body keeps holds when the loop returns. *)
Lemma run_to_return (I : CrawlState → list string → Prop) :
  (∀ s order u rest,
     crawl_inv s → I s order → queue s = u :: rest →
     I (after_page u rest s) (order ++ [u])) →
  checkpoint_interval ≠ 0 →
  ∀ k counter w order0,
    crawl_inv (state w) → I (state w) order0 → max_pages - counter = k →
    ∃ n total w' order,
      run n (AtWhile counter, w) = (Returned total, w')
      ∧ progress w' = progress w ++ order
      ∧ I (state w') (order0 ++ order)
      ∧ (total < max_pages → queue (state w') = []).
Proof.
  intros Hpass Hint. induction k as [|k IH]; intros counter w order0 Hinv HI Hk.
  - exists 1, counter, w, []. cbn [run step].
    replace (counter <? max_pages) with false
      by (symmetry; apply Nat.ltb_ge; lia).
    rewrite andb_false_r, !app_nil_r. split_and!; [done..|lia].
  - destruct (queue (state w)) as [|url rest] eqn:Hq.
    + exists 1, counter, w, []. cbn [run step]. rewrite Hq. simpl.
      rewrite !app_nil_r. done.
    + destruct (run_iteration max_pages checkpoint_interval fetcher
                  counter w url rest Hinv Hq ltac:(lia) Hint)
        as (w1 & Hrun & Hs1 & Hp1).
      destruct (after_page_spec fetcher url rest (state w) Hinv Hq)
        as (_ & _ & _ & _ & Hinv1).
      pose proof (Hpass _ _ _ _ Hinv HI Hq) as HI1.
      rewrite <- Hs1 in Hinv1, HI1.
      destruct (IH (S counter) w1 _ Hinv1 HI1 ltac:(lia))
        as (n & total & w' & order & Hrun' & Hp' & HI' & Hend).
      exists (5 + length (fetcher url).1 + n), total, w', (url :: order).
      rewrite (run_add max_pages checkpoint_interval fetcher), Hrun, Hrun'.
      split; [done|]. split; [by rewrite Hp', Hp1, <- app_assoc|].
      split; [by rewrite <- app_assoc in HI'|done].
Qed.

(** The same for every result of [scrape]. *)
Lemma returned_satisfies (I : CrawlState → list string → Prop) :
  (∀ s order u rest,
     crawl_inv s → I s order → queue s = u :: rest →
     I (after_page u rest s) (order ++ [u])) →
  checkpoint_interval ≠ 0 →
  ∀ w n total w',
    crawl_inv (state w) → I (state w) [] →
    run n (scrape w) = (Returned total, w') →
    ∃ order,
      progress w' = progress w ++ order
      ∧ I (state w') order
      ∧ (total < max_pages → queue (state w') = []).
Proof.
  intros Hpass Hint w n total w' Hinv HI Hrun.
  destruct (run_to_return I Hpass Hint _ (size (visited (state w))) w []
              Hinv HI eq_refl)
    as (n1 & total1 & w1 & order & Hrun1 & Hp & HI1 & Hend).
  destruct (returned_unique _ _ _ _ _ _ _ _ _ _ Hrun Hrun1) as [-> ->].
  by exists order.
Qed.

(** One pass of the loop body on the graph. *)
Lemma after_page_graph url rest s :
  graph (after_page url rest s)
  = add_edges url (fetcher url).1 (add_node url (fetcher url).2 (graph s)).
Proof. unfold after_page. by rewrite enqueue_links_graph. Qed.

(** X9.  The graph of a crawl from the fresh state is the link graph of the
    processed pages.  When [scrape] returns, the edges are exactly the
    pairs of a processed page and one of its links; the attributes of a
    processed page are exactly its metadata; every other node is the
    target of such a link and has no attributes. *)
Theorem graph_is_link_graph_of_processed_pages
    (seed : string) (n total : nat) (w' : World) :
  checkpoint_interval ≠ 0 →
  run n (scrape (mkWorld (fresh_state seed) None [])) = (Returned total, w') →
  let g := graph (state w') in
  (∀ u v, (u, v) ∈ edges g ↔ u ∈ progress w' ∧ v ∈ (fetcher u).1)
  ∧ (∀ u, u ∈ progress w' → nodes g !! u = Some (fetcher u).2)
  ∧ (∀ x attr, nodes g !! x = Some attr → x ∉ progress w' →
       attr = ∅ ∧ ∃ u, u ∈ progress w' ∧ x ∈ (fetcher u).1)
  ∧ (∀ u v, u ∈ progress w' → v ∈ (fetcher u).1 → is_Some (nodes g !! v)).
Proof.
  intros Hint Hrun.
  pose (I := fun (s : CrawlState) (order : list string) =>
    visited s = list_to_set order
    ∧ (∀ u v, (u, v) ∈ edges (graph s) ↔ u ∈ order ∧ v ∈ (fetcher u).1)
    ∧ (∀ u, u ∈ order → nodes (graph s) !! u = Some (fetcher u).2)
    ∧ (∀ x attr, nodes (graph s) !! x = Some attr → x ∉ order →
         attr = ∅ ∧ ∃ u, u ∈ order ∧ x ∈ (fetcher u).1)
    ∧ (∀ u v, u ∈ order → v ∈ (fetcher u).1 →
         is_Some (nodes (graph s) !! v))).
  destruct (returned_satisfies I) with (w := mkWorld (fresh_state seed) None [])
    (n := n) (total := total) (w' := w')
    as (order & Hp & (_ & He & Hn & Ho & Ht) & _); try done.
  - clear. intros s order u rest Hinv (Hv & He & Hn & Ho & Ht) Hq.
    destruct (after_page_spec fetcher u rest s Hinv Hq)
      as (_ & Hv' & _ & Hu & _).
    assert (u ∉ order) as Huo by (rewrite Hv in Hu; set_solver).
    assert (nodes (add_node u (fetcher u).2 (graph s)) !! u
            = Some (fetcher u).2) as Hnu.
    { simpl. rewrite lookup_insert_eq.
      destruct (nodes (graph s) !! u) as [a|] eqn:E; simpl.
      - destruct (Ho _ _ E Huo) as [-> _]. by rewrite (right_id_L ∅ (∪)).
      - by rewrite (right_id_L ∅ (∪)). }
    unfold I. rewrite after_page_graph. split_and!.
    + rewrite Hv', Hv, list_to_set_app_L. simpl. set_solver.
    + intros a b. rewrite add_edges_edges. simpl. rewrite He, elem_of_app.
      rewrite list_elem_of_singleton. split.
      * intros [[? ?]|[-> ?]]; auto.
      * intros [[?| ->] ?]; auto.
    + intros a [Ha| ->%list_elem_of_singleton]%elem_of_app.
      * apply add_edges_keeps. simpl. rewrite lookup_insert_ne; [by apply Hn|].
        by intros ->.
      * by apply add_edges_keeps.
    + intros x attr Hx Hxo.
      apply not_elem_of_app in Hxo as [Hxo Hxu].
      rewrite list_elem_of_singleton in Hxu.
      apply add_edges_lookup in Hx as [Hx|(-> & _ & _ & [->|Hx])]; [| done |].
      * simpl in Hx. rewrite lookup_insert_ne in Hx by done.
        destruct (Ho _ _ Hx Hxo) as (-> & a & Ha & Hxa).
        split; [done|]. exists a. split; [set_solver|done].
      * split; [done|]. exists u. split; [set_solver|done].
    + intros a b [Ha| ->%list_elem_of_singleton]%elem_of_app Hb.
      * destruct (decide (u = b)) as [->|Hne].
        -- exists (fetcher b).2. by apply add_edges_keeps.
        -- destruct (Ht _ _ Ha Hb) as [attr Hattr]. exists attr.
           apply add_edges_keeps. simpl. by rewrite lookup_insert_ne.
      * by apply add_edges_targets.
  - split; [split|]; simpl; [apply NoDup_singleton|set_solver|set_solver].
  - unfold I. simpl. split_and!; set_solver.
  - simpl in Hp. subst order. done.
Qed.

Lemma reach_snoc V a u l :
  reach V a u → l ∈ (fetcher u).1 → l ∉ V → reach V a l.
Proof.
  intros Hr Hl HV. induction Hr as [x Hx|x y z Hx Hy Hr IH].
  - eapply reach_link; [done..|]. by constructor.
  - eapply reach_link; [done..|]. by apply IH.
Qed.

(** X10.  A crawl from the fresh state visits reachable pages only, and a
    crawl that returns before the page budget is reached has visited all of
    them: the visited set is then exactly the set of pages to which a chain
    of links leads from the seed, and the frontier is empty. *)
Theorem crawl_to_completion_visits_the_reachable_pages
    (seed : string) (n total : nat) (w' : World) :
  checkpoint_interval ≠ 0 →
  run n (scrape (mkWorld (fresh_state seed) None [])) = (Returned total, w') →
  (∀ x, x ∈ visited (state w') → reach ∅ seed x)
  ∧ (total < max_pages →
     queue (state w') = []
     ∧ ∀ x, x ∈ visited (state w') ↔ reach ∅ seed x).
Proof.
  intros Hint Hrun.
  pose (I := fun (s : CrawlState) (order : list string) =>
    (∀ x, reach ∅ seed x → x ∈ visited s ∨ frontier_reach s x)
    ∧ (∀ x, x ∈ queue s ∨ x ∈ visited s → reach ∅ seed x)).
  destruct (returned_satisfies I) with (w := mkWorld (fresh_state seed) None [])
    (n := n) (total := total) (w' := w')
    as (order & _ & (Hc & Hs) & Hend); try done.
  - clear. intros s order u rest Hinv [Hc Hs] Hq.
    destruct (after_page_spec fetcher u rest s Hinv Hq)
      as (Hq' & Hv' & _ & _ & _).
    split.
    + intros x Hx. destruct (Hc x Hx) as [?|Hf]; [left; set_solver|].
      destruct (frontier_reach_after fetcher _ _ _ _ Hinv Hq Hf) as [->|?];
        [left; set_solver|by right].
    + intros x. rewrite Hq', Hv', elem_of_app, new_links_elem.
      intros [[Hx|[Hx _]]|[->%elem_of_singleton|Hx]%elem_of_union].
      * apply Hs. left. rewrite Hq. set_solver.
      * apply (reach_snoc _ _ u); [|done|set_solver].
        apply Hs. left. rewrite Hq. set_solver.
      * apply Hs. left. rewrite Hq. set_solver.
      * apply Hs. by right.
  - split; [split|]; simpl; [apply NoDup_singleton|set_solver|set_solver].
  - split; simpl.
    + intros x Hx. right. exists seed. split; [set_solver|done].
    + intros x [->%list_elem_of_singleton|?]; [|set_solver].
      constructor. set_solver.
  - split; [intros x Hx; apply Hs; by right|].
    intros Hlt. specialize (Hend Hlt). split; [done|].
    intros x. split; [intros Hx; apply Hs; by right|].
    intros Hx. destruct (Hc x Hx) as [?|(u & Hu & _)]; [done|].
    rewrite Hend in Hu. set_solver.
Qed.

End ResultFacts.

Lemma graph_is_link_graph_of_processed_pages_witness :
  let w' := (run 10 50 Samples.small_fetcher 20
               (scrape (mkWorld (fresh_state "s") None []))).2 in
  let g := graph (state w') in
  (∀ u v, (u, v) ∈ edges g
          ↔ u ∈ progress w' ∧ v ∈ (Samples.small_fetcher u).1)
  ∧ (∀ u, u ∈ progress w' → nodes g !! u = Some (Samples.small_fetcher u).2)
  ∧ (∀ x attr, nodes g !! x = Some attr → x ∉ progress w' →
       attr = ∅ ∧ ∃ u, u ∈ progress w' ∧ x ∈ (Samples.small_fetcher u).1)
  ∧ (∀ u v, u ∈ progress w' → v ∈ (Samples.small_fetcher u).1 →
       is_Some (nodes g !! v)).
Proof.
  apply (graph_is_link_graph_of_processed_pages 10 50 Samples.small_fetcher
           "s" 20 3); [discriminate|vm_compute; reflexivity].
Defined.

Lemma crawl_to_completion_visits_the_reachable_pages_witness :
  let w' := (run 10 50 Samples.small_fetcher 20
               (scrape (mkWorld (fresh_state "s") None []))).2 in
  (∀ x, x ∈ visited (state w') → reach Samples.small_fetcher ∅ "s" x)
  ∧ (3 < 10 →
     queue (state w') = []
     ∧ ∀ x, x ∈ visited (state w') ↔ reach Samples.small_fetcher ∅ "s" x).
Proof.
  apply (crawl_to_completion_visits_the_reachable_pages 10 50
           Samples.small_fetcher "s" 20 3);
    [discriminate|vm_compute; reflexivity].
Defined.

(** * The links and the metadata of a page *)

Section FetchFacts.

Variable chk : string → bool.
Variable domain : string.

Lemma link_of_href_valid url href x :
  link_of_href chk domain url href = Some x → is_valid_url chk domain x = true.
Proof.
  unfold link_of_href.
  destruct (Urllib.urljoin chk url href) as [full_url|]; [|done].
  destruct (Urllib.urlparse chk full_url EmptyString) as [parsed|]; [|done].
  destruct (is_valid_url chk domain (clean_url parsed)) eqn:E; [|done].
  by intros [= <-].
Qed.

Lemma collected_links url hrefs acc x :
  x ∈ foldl (fun (links : gset string) href =>
               match link_of_href chk domain url href with
               | Some clean => {[clean]} ∪ links
               | None => links
               end) acc hrefs
  ↔ x ∈ acc ∨ ∃ href, href ∈ hrefs ∧ link_of_href chk domain url href = Some x.
Proof.
  revert acc. induction hrefs as [|href hrefs IH]; intros acc; simpl.
  { split; [by left|]. intros [?|(href & Hin & _)]; [done|].
    by apply elem_of_nil in Hin. }
  rewrite IH. destruct (link_of_href chk domain url href) as [clean|] eqn:E.
  - rewrite elem_of_union, elem_of_singleton. split.
    + intros [[->|?]|(h & Hh & Hx)]; [right|by left|right].
      * exists href. split; [apply list_elem_of_here|done].
      * exists h. split; [by apply list_elem_of_further|done].
    + intros [?|(h & Hh & Hx)]; [by left; right|].
      apply elem_of_cons in Hh as [->|Hh].
      * left; left. congruence.
      * right. by exists h.
  - split.
    + intros [?|(h & Hh & Hx)]; [by left|right].
      exists h. split; [by apply list_elem_of_further|done].
    + intros [?|(h & Hh & Hx)]; [by left|].
      apply elem_of_cons in Hh as [->|Hh]; [congruence|].
      right. by exists h.
Qed.

Variable requests_get : string → Response.

(** X11.  For a page that is fetched and whose title, if it has one, has a
    string, [fetch_links] returns the metadata of [fetch_page_metadata] and
    exactly the links that the anchors of the page contribute; every
    returned link passes [is_valid_url] and holds no '#'. *)
Theorem fetch_links_of_fetched_page (url : string) (soup : Soup) :
  requests_get url = Fetched soup →
  soup_title soup ≠ Some None →
  let '(links, md) := fetch_links chk domain requests_get url in
  fetch_page_metadata url soup = Ok md
  ∧ (∀ x, x ∈ links
          ↔ ∃ href, href ∈ soup_hrefs soup
                    ∧ link_of_href chk domain url href = Some x)
  ∧ (∀ x, x ∈ links →
          is_valid_url chk domain x = true ∧ Py.contains_char "#" x = false).
Proof.
  intros Hget Htitle. unfold fetch_links. rewrite Hget.
  destruct (fetch_page_metadata url soup) as [md|e] eqn:Hmd.
  - split; [done|].
    assert (∀ x, x ∈ foldl (fun (links : gset string) href =>
               match link_of_href chk domain url href with
               | Some clean => {[clean]} ∪ links
               | None => links
               end) ∅ (soup_hrefs soup)
              ↔ ∃ href, href ∈ soup_hrefs soup
                        ∧ link_of_href chk domain url href = Some x) as Hl.
    { intros x. rewrite collected_links. set_solver. }
    split; [done|]. intros x (href & _ & Hx)%Hl.
    apply link_of_href_valid in Hx. split; [done|].
    unfold is_valid_url in Hx.
    destruct (Urllib.urlparse chk x EmptyString); [|done].
    apply andb_true_iff in Hx as [_ Hx]. by apply negb_true_iff in Hx.
  - exfalso. revert Hmd. unfold fetch_page_metadata.
    destruct (soup_title soup) as [[t|]|]; [|done|];
      destruct (soup_published_time soup); try done;
      by destruct (scan_url_parts _ _) as [[d|]|].
Qed.

(** Whatever the page and the response, a returned link passes
    [is_valid_url]. *)
Lemma fetch_links_valid url x :
  x ∈ (fetch_links chk domain requests_get url).1 →
  is_valid_url chk domain x = true.
Proof.
  unfold fetch_links. destruct (requests_get url) as [soup|]; [|set_solver].
  destruct (fetch_page_metadata url soup); [|set_solver]. simpl.
  rewrite collected_links. intros [?|(href & _ & Hx)]; [set_solver|].
  by apply link_of_href_valid in Hx.
Qed.

End FetchFacts.

Lemma fetch_links_of_fetched_page_witness :
  let '(links, md) :=
    fetch_links (fun _ => true) Params.domain Samples.anchor_web
      Params.base_url in
  fetch_page_metadata Params.base_url Samples.anchor_page = Ok md
  ∧ (∀ x, x ∈ links
          ↔ ∃ href, href ∈ soup_hrefs Samples.anchor_page
                    ∧ link_of_href (fun _ => true) Params.domain
                        Params.base_url href = Some x)
  ∧ (∀ x, x ∈ links →
          is_valid_url (fun _ => true) Params.domain x = true
          ∧ Py.contains_char "#" x = false).
Proof.
  apply (fetch_links_of_fetched_page (fun _ => true) Params.domain
           Samples.anchor_web Params.base_url Samples.anchor_page);
    [reflexivity|discriminate].
Defined.

(** * The crawl stays in the domain *)

Section ConfinementFacts.

Variable max_pages : nat.
Variable checkpoint_interval : nat.
Variable fetcher : string → list string * metadata.

Notation step := (step max_pages checkpoint_interval fetcher).
Notation run := (run max_pages checkpoint_interval fetcher).

Variable P : string → Prop.
Hypothesis links_in_P : ∀ u l, l ∈ (fetcher u).1 → P l.

Lemma step_confined c : confined P c → confined P (step c).
Proof using links_in_P.
  destruct c as [p w]. unfold confined. simpl.
  intros (Hq & Hv & Hp & Hn & He & Hpc).
  destruct p as [counter|counter url|counter url links md
                |counter url [|link rest]|counter|counter|e]; simpl.
  - destruct (bool_decide _ && _); [|done].
    destruct (dequeue (state w)) as [r s'] eqn:E.
    destruct (dequeue_graph_visited _ _ _ E) as [Hg Hvis].
    apply dequeue_spec in E.
    destruct r as [url|e]; simpl.
    + destruct E as (Eq & _ & _).
      assert (P url) by (apply Hq; rewrite Eq; set_solver).
      assert (∀ x, x ∈ queue s' → P x)
        by (intros; apply Hq; rewrite Eq; set_solver).
      destruct (decide (url ∈ visited s')); simpl; rewrite Hg, Hvis; done.
    + rewrite Hg, Hvis. split_and!; try done.
      destruct e; try done; [by destruct E as [_ ->]|].
      destruct E as (Eq & _ & _). intros; apply Hq; rewrite Eq; set_solver.
  - destruct (fetcher url) as [links md] eqn:Ef. simpl.
    split_and!; try done.
    + intros x [?| ->%list_elem_of_singleton]%elem_of_app; auto.
    + intros l Hl. apply (links_in_P url). by rewrite Ef.
  - destruct Hpc as [Hu Hl]. split_and!; try done.
    + intros x [->%elem_of_singleton|?]%elem_of_union; auto.
    + intros x. destruct (decide (x = url)) as [->|Hne]; [done|].
      rewrite lookup_insert_ne by done. auto.
  - done.
  - destruct Hpc as [Hu Hl].
    assert (P link) by (apply Hl; set_solver).
    assert (∀ l, l ∈ rest → P l) by (intros; apply Hl; set_solver).
    unfold enqueue_link.
    assert (∀ x, is_Some (ensure_node link (ensure_node url
                   (nodes (graph (state w)))) !! x) → P x) as Hn'.
    { intros x Hx.
      destruct (decide (x = link)) as [->|?]; [done|].
      destruct (decide (x = url)) as [->|?]; [done|].
      apply Hn. revert Hx. unfold ensure_node.
      repeat (case_match; rewrite ?lookup_insert_ne by done); done. }
    assert (∀ u v, (u, v) ∈ ({[(url, link)]} ∪ edges (graph (state w))
                             : gset (string * string)) → P u ∧ P v) as He'.
    { intros u v [[= -> ->]%elem_of_singleton|?]%elem_of_union; auto. }
    destruct (decide _); simpl; split_and!; try done.
    intros x [?| ->%list_elem_of_singleton]%elem_of_app; auto.
  - destruct checkpoint_interval; [done|]. by destruct (_ =? _).
  - done.
  - done.
Qed.

Lemma run_confined n c : confined P c → confined P (run n c).
Proof using links_in_P.
  apply (run_invariant max_pages checkpoint_interval fetcher (confined P)).
  apply step_confined.
Qed.

End ConfinementFacts.

(** X12.  A crawl from the fresh state never leaves the domain: at any
    time, every URL that is in the frontier, is visited, has been
    requested, or is a node or an end of an edge of the graph is the seed
    or passes [is_valid_url]. *)
Theorem crawl_stays_in_domain
    (max_pages checkpoint_interval : nat) (chk : string → bool)
    (domain : string) (requests_get : string → Response)
    (seed : string) (n : nat) :
  let w := (run max_pages checkpoint_interval
              (fetcher_of chk domain requests_get) n
              (scrape (mkWorld (fresh_state seed) None []))).2 in
  let g := graph (state w) in
  ∀ x, x ∈ queue (state w) ∨ x ∈ visited (state w) ∨ x ∈ progress w
       ∨ is_Some (nodes g !! x)
       ∨ (∃ y, (x, y) ∈ edges g ∨ (y, x) ∈ edges g) →
       x = seed ∨ is_valid_url chk domain x = true.
Proof.
  intros w g x.
  pose (P := fun x => x = seed ∨ is_valid_url chk domain x = true).
  assert (confined P (run max_pages checkpoint_interval
            (fetcher_of chk domain requests_get) n
            (scrape (mkWorld (fresh_state seed) None []))))
    as (Hq & Hv & Hp & Hn & He & _).
  { apply run_confined.
    - intros u l. unfold fetcher_of.
      destruct (fetch_links chk domain requests_get u) as [links md] eqn:E.
      simpl. intros Hl%elem_of_elements. right.
      apply (fetch_links_valid chk domain requests_get u). by rewrite E.
    - unfold confined, P. simpl. split_and!; try set_solver.
      intros y Hy. by rewrite lookup_empty in Hy; destruct Hy. }
  intros [?|[?|[?|[?|[y [Hy|Hy]]]]]];
    [by apply Hq|by apply Hv|by apply Hp|by apply Hn| |].
  - by apply (He x y).
  - by apply (He y x).
Qed.

Lemma crawl_stays_in_domain_witness :
  let about := "https://visakanv.com/about" in
  about = Params.base_url
  ∨ is_valid_url (fun _ => true) Params.domain about = true.
Proof.
  intros about.
  apply (crawl_stays_in_domain 10 50 (fun _ => true) Params.domain
           Samples.anchor_web Params.base_url 7 about).
  left. vm_compute. constructor.
Defined.

(** * The publication date of a page *)

Lemma scan_url_parts_raises (url_parts : list string) (found : option string) :
  has_bad_digits url_parts = true →
  scan_url_parts url_parts found = Raise ValueError.
Proof.
  revert found. induction url_parts as [|part rest IH]; intros found; simpl;
    [done|].
  intros H. destruct rest as [|next rest']; [done|].
  unfold year_then_digits in H.
  destruct (Py.isdigit part && (String.length part =? 4)); [|by apply IH].
  destruct (Py.isdigit next); [|by apply IH].
  destruct (Py.int next) as [month|]; [|done]. simpl in H.
  destruct ((1 <=? month)%Z && _); by apply IH.
Qed.

Lemma scan_url_parts_dates (url_parts : list string) (found : option string) :
  has_bad_digits url_parts = false →
  scan_url_parts url_parts found
  = Ok (match last (year_months url_parts) with
        | Some d => Some d
        | None => found
        end).
Proof.
  revert found. induction url_parts as [|part rest IH]; intros found; simpl;
    [done|].
  intros H. destruct rest as [|next rest'].
  { by destruct (Py.isdigit part && (String.length part =? 4)). }
  unfold year_then_digits in *.
  destruct (Py.isdigit part && (String.length part =? 4)); [|by apply IH].
  destruct (Py.isdigit next); [|by apply IH].
  destruct (Py.int next) as [month|]; [|done]. simpl in H.
  destruct ((1 <=? month)%Z && _); [|by apply IH].
  rewrite (IH _ H). cbn [andb app].
  destruct (year_months (next :: rest')) as [|d ds] eqn:E; [done|].
  change (last (?a :: d :: ds)) with (last (d :: ds)).
  pose proof (last_cons d ds) as Hl.
  destruct (last (d :: ds)); [done|]. by destruct (last ds).
Qed.

(** X13.  The publication date that [fetch_page_metadata] stores.  With a
    published-time tag it is the content of the tag, or "Unknown" without
    content.  Without the tag it is "Unknown" when some segment of four
    digits of the URL is followed by a digit segment that [int] refuses,
    whatever dates the URL holds elsewhere; otherwise it is the last
    year and month that the URL holds, and there is no entry when it holds
    none. *)
Theorem pub_date_of_page (url : string) (soup : Soup) (md : metadata) :
  fetch_page_metadata url soup = Ok md →
  md !! "pub_date"
  = match soup_published_time soup with
    | Some date_meta => Some (PStr (default "Unknown" date_meta))
    | None =>
        if has_bad_digits (Py.split "/" url) then Some (PStr "Unknown")
        else PStr <$> last (year_months (Py.split "/" url))
    end.
Proof.
  unfold fetch_page_metadata.
  destruct (soup_title soup) as [[t|]|]; [|done|];
    (destruct (soup_published_time soup) as [date_meta|];
     [intros [= <-]; by rewrite lookup_insert_eq|]);
    (destruct (has_bad_digits (Py.split "/" url)) eqn:Hbad;
     [rewrite (scan_url_parts_raises _ _ Hbad); intros [= <-];
      by rewrite lookup_insert_eq
     |rewrite (scan_url_parts_dates _ _ Hbad);
      destruct (last (year_months (Py.split "/" url))) as [d|];
      intros [= <-]; simpl;
      [by rewrite lookup_insert_eq
      |by rewrite !lookup_insert_ne, lookup_empty]]).
Qed.

Lemma pub_date_of_page_witness :
  let url := "https://visakanv.com/2019/11/2021/05/post" in
  ∃ md, fetch_page_metadata url Samples.about_page = Ok md
        ∧ md !! "pub_date"
          = match soup_published_time Samples.about_page with
            | Some date_meta => Some (PStr (default "Unknown" date_meta))
            | None =>
                if has_bad_digits (Py.split "/" url) then Some (PStr "Unknown")
                else PStr <$> last (year_months (Py.split "/" url))
            end.
Proof.
  intros url. eexists. split; [reflexivity|].
  apply (pub_date_of_page url Samples.about_page). reflexivity.
Defined.

(** * An interrupted crawl that is resumed *)

Section ResumeFacts.

Variable max_pages : nat.
Variable checkpoint_interval : nat.
Variable fetcher : string → list string * metadata.
Variable base_url : string.

Notation step := (step max_pages checkpoint_interval fetcher).
Notation run := (run max_pages checkpoint_interval fetcher).
Notation main := (main max_pages checkpoint_interval fetcher base_url).




End ResumeFacts.


(** * Checkpoints that cannot be resumed *)

Section BrokenCheckpoints.

Variable max_pages : nat.
Variable checkpoint_interval : nat.
Variable fetcher : string → list string * metadata.
Variable base_url : string.

Notation step := (step max_pages checkpoint_interval fetcher).
Notation run := (run max_pages checkpoint_interval fetcher).
Notation main := (main max_pages checkpoint_interval fetcher base_url).


(** X20.  An interrupt between lines 180 and 181, while the frontier holds
    nothing but the link that it has just received, leaves a checkpoint in
    which the link is in the frontier and not in [queued].  The program
    started again on that checkpoint raises [KeyError] at line 154 in its
    first pass, exports nothing, and leaves a checkpoint with an empty
    frontier in which the link is not visited. *)
Theorem interrupt_before_queued_add_breaks_resume
    (disk0 : option CrawlState) (export_error : option exn)
    (n counter fuel : nat) (url link : string) (rest : list string)
    (w : World) :
  run n (scrape (mkWorld (default (fresh_state base_url) disk0) disk0 []))
  = (AtLink counter url (link :: rest), w) →
  queue (state w) = [] →
  link ∉ visited (state w) →
  link ∉ queued (state w) →
  size (visited (state w)) < max_pages →
  ∃ p1 p2 saved left,
    main (Pickled <$> disk0) (Some (InLoop n AfterAppend)) export_error 0
    = Some p1
    ∧ exit p1 = ExitNormal ∧ disk p1 = Some (Pickled saved)
    ∧ queue saved = [link] ∧ (link ∉ queued saved)
    ∧ main (disk p1) None export_error (S fuel) = Some p2
    ∧ exit p2 = ExitRaised (KeyError link) ∧ exported p2 = None
    ∧ disk p2 = Some (Pickled left)
    ∧ queue left = [] ∧ (link ∉ visited left).
Proof.
  intros Hrun Hq Hv Hqd Hlt.
  pose (saved := mkCrawlState (add_edge url link (graph (state w)))
                   (visited (state w)) [link] (queued (state w))).
  pose (left := mkCrawlState (graph saved) (visited saved) [] (queued saved)).
  exists (handler None saved (progress w)),
         (handler (Some (KeyError link)) left []), saved, left.
  split_and!; try done.
  - unfold main. rewrite loaded_pickled. cbv zeta. rewrite Hrun.
    unfold midway. rewrite decide_True by done. rewrite Hq.
    by destruct disk0.
  - change (disk (handler None saved (progress w)))
      with (Some (Pickled saved)).
    unfold main. cbn [loaded default]. cbv zeta.
    assert (step (scrape (mkWorld saved (Some saved) []))
            = (Raised (KeyError link), mkWorld left (Some saved) [])) as Hstep.
    { unfold scrape, step. cbn [state visited queue saved].
      rewrite bool_decide_true by done.
      replace (size (visited (state w)) <? max_pages) with true
        by (symmetry; apply Nat.ltb_lt; lia).
      cbn [andb]. unfold dequeue. cbn [queue queued saved].
      by rewrite decide_False by done. }
    change (id saved) with saved.
    rewrite run_S, Hstep, run_finished by done. done.
Qed.

End BrokenCheckpoints.


Lemma interrupt_before_queued_add_breaks_resume_witness :
  ∃ p1 p2 saved left,
    main 10 50 Samples.small_fetcher "s" None (Some (InLoop 3 AfterAppend))
      None 0 = Some p1
    ∧ exit p1 = ExitNormal ∧ disk p1 = Some (Pickled saved)
    ∧ queue saved = ["sa"] ∧ ("sa" ∉ queued saved)
    ∧ main 10 50 Samples.small_fetcher "s" (disk p1) None None 20 = Some p2
    ∧ exit p2 = ExitRaised (KeyError "sa") ∧ exported p2 = None
    ∧ disk p2 = Some (Pickled left)
    ∧ queue left = [] ∧ ("sa" ∉ visited left).
Proof.
  apply (interrupt_before_queued_add_breaks_resume 10 50
           Samples.small_fetcher "s" None None 3 1 19 "s" "sa" ["sb"]
           (run 10 50 Samples.small_fetcher 3
              (scrape (mkWorld (fresh_state "s") None []))).2).
  - vm_compute. reflexivity.
  - vm_compute. reflexivity.
  - vm_compute. set_solver.
  - vm_compute. set_solver.
  - vm_compute. lia.
Defined.

(** * The report of [analyze_queue] *)

Lemma split_head (c : ascii) (s : string) :
  ∃ h t, Py.split c s = h :: t
         ∧ Py.contains_char c h = false
         ∧ (s = h ∨ ∃ rest, s = h +:+ String c rest).
Proof.
  induction s as [|a s (h & t & E & Hh & Hs)]; simpl.
  { exists EmptyString, []. by split_and!; [| |left]. }
  destruct (Ascii.eqb_spec a c) as [->|Hne].
  - exists EmptyString, (Py.split c s). split_and!; [done..|].
    right. by exists s.
  - rewrite E. exists (String a h), t. split_and!; [done| |].
    + simpl. by destruct (Ascii.eqb_spec a c).
    + destruct Hs as [->|[rest ->]]; [by left|right]. by exists rest.
Qed.

Lemma count_endpoint_keys e d x :
  x ∈ (count_endpoint e d).*1 ↔ x = e ∨ x ∈ d.*1.
Proof.
  induction d as [|[k c] d IH]; simpl; [set_solver|].
  destruct (String.eqb_spec k e) as [->|Hne]; simpl; set_solver.
Qed.

Lemma count_endpoint_NoDup e d :
  NoDup d.*1 → NoDup (count_endpoint e d).*1.
Proof.
  induction d as [|[k c] d IH]; simpl.
  { intros _. apply NoDup_singleton. }
  intros [Hk Hd]%NoDup_cons.
  destruct (String.eqb_spec k e) as [->|Hne]; simpl.
  - by apply NoDup_cons.
  - apply NoDup_cons. split; [|by apply IH].
    rewrite count_endpoint_keys. naive_solver.
Qed.

Lemma count_endpoint_map e d :
  (list_to_map (count_endpoint e d) : gmap string nat)
  = <[e := default 0 ((list_to_map d : gmap string nat) !! e) + 1]>
      (list_to_map d).
Proof.
  induction d as [|[k c] d IH]; simpl; [done|].
  destruct (String.eqb_spec k e) as [->|Hne]; simpl.
  - by rewrite lookup_insert_eq, insert_insert_eq.
  - rewrite IH, lookup_insert_ne by done. by apply insert_insert_ne.
Qed.

Lemma count_endpoints_spec chk q d d' :
  count_endpoints chk q d = Ok d' →
  NoDup d.*1 →
  (∀ e k, (list_to_map d : gmap string nat) !! e = Some k → 0 < k) →
  NoDup d'.*1
  ∧ (∀ e k, (list_to_map d' : gmap string nat) !! e = Some k → 0 < k)
  ∧ (∀ e, default 0 ((list_to_map d' : gmap string nat) !! e)
          = default 0 ((list_to_map d : gmap string nat) !! e)
            + endpoint_count chk e q)
  ∧ ∀ u, u ∈ q → ∃ e, endpoint_of chk u = Ok e.
Proof.
  revert d. induction q as [|u q IH]; intros d; simpl.
  { intros [= <-] Hd Hpos. split_and!; [done..| |set_solver].
    intros e. unfold endpoint_count. simpl. lia. }
  destruct (endpoint_of chk u) as [e0|] eqn:He0; [|done].
  intros Hq Hd Hpos.
  destruct (IH _ Hq) as (Hd' & Hpos' & Hcount & Hok).
  { by apply count_endpoint_NoDup. }
  { intros e k. rewrite count_endpoint_map.
    destruct (decide (e = e0)) as [->|Hne].
    - rewrite lookup_insert_eq. intros [= <-]. lia.
    - rewrite lookup_insert_ne by done. apply Hpos. }
  split_and!; [done..| |].
  - intros e. rewrite Hcount, count_endpoint_map.
    unfold endpoint_count. rewrite filter_cons.
    assert (has_endpoint chk e u = String.eqb e0 e) as ->
      by (unfold has_endpoint; by rewrite He0).
    destruct (String.eqb_spec e0 e) as [->|Hne].
    + rewrite lookup_insert_eq, decide_True by done. simpl. lia.
    + rewrite lookup_insert_ne, decide_False by done. done.
  - intros x [->|Hx]%elem_of_cons; [by exists e0|by apply Hok].
Qed.

Lemma insert_by_count_perm x l : insert_by_count x l ≡ₚ x :: l.
Proof.
  induction l as [|y l IH]; simpl; [done|].
  destruct (y.2 <=? x.2); [done|]. by rewrite IH, Permutation_swap.
Qed.

Lemma sorted_by_count_perm l : sorted_by_count l ≡ₚ l.
Proof.
  induction l as [|x l IH]; simpl; [done|].
  by rewrite insert_by_count_perm, IH.
Qed.

Lemma insert_by_count_sorted x l :
  StronglySorted (fun a b : string * nat => b.2 ≤ a.2) l →
  StronglySorted (fun a b : string * nat => b.2 ≤ a.2) (insert_by_count x l).
Proof.
  induction 1 as [|y l Hl IH Hy]; simpl.
  { by repeat constructor. }
  destruct (Nat.leb_spec y.2 x.2).
  - constructor; [by constructor|]. constructor; [done|].
    eapply Forall_impl; [exact Hy|]. simpl. lia.
  - constructor; [done|]. rewrite insert_by_count_perm.
    constructor; [lia|done].
Qed.

Lemma sorted_by_count_sorted l :
  StronglySorted (fun a b : string * nat => b.2 ≤ a.2) (sorted_by_count l).
Proof.
  induction l as [|x l IH]; simpl; [constructor|].
  by apply insert_by_count_sorted.
Qed.

Lemma sorted_take_drop (l : list (string * nat)) n x y :
  StronglySorted (fun a b : string * nat => b.2 ≤ a.2) l →
  x ∈ take n l → y ∈ drop n l → y.2 ≤ x.2.
Proof.
  intros Hl. revert n. induction Hl as [|a l Hl IH Ha]; intros n.
  { by rewrite take_nil; intros ?%elem_of_nil. }
  destruct n as [|n]; simpl; [by intros ?%elem_of_nil|].
  intros [->|Hx]%elem_of_cons Hy; [|by apply (IH n)].
  rewrite Forall_forall in Ha. apply Ha.
  rewrite <- (take_drop n l). set_solver.
Qed.

(** X15.  What [analyze_queue] reports on a non-empty queue when it does
    not raise: the size of the queue and its first five URLs; at most ten
    endpoints, no endpoint twice, by falling count; every count is the
    number of URLs of the queue with that endpoint; and an endpoint of the
    queue that is not listed is no more frequent than any listed one, the
    list being full then. *)
Theorem analyze_queue_report
    (chk : string → bool) (queue : list string) (r : QueueReport) :
  analyze_queue chk queue = Ok (Some r) →
  total_urls r = length queue
  ∧ sample_urls r = take 5 queue
  ∧ length (top_endpoints r) ≤ 10
  ∧ NoDup (top_endpoints r).*1
  ∧ StronglySorted (fun a b : string * nat => b.2 ≤ a.2) (top_endpoints r)
  ∧ (∀ e k, (e, k) ∈ top_endpoints r →
            0 < k ∧ k = endpoint_count chk e queue)
  ∧ (∀ e, 0 < endpoint_count chk e queue → e ∉ (top_endpoints r).*1 →
          length (top_endpoints r) = 10
          ∧ ∀ e' k', (e', k') ∈ top_endpoints r →
                     endpoint_count chk e queue ≤ k').
Proof.
  intros H.
  assert (∃ d, count_endpoints chk queue [] = Ok d
               ∧ r = mkQueueReport (length queue)
                       (take 10 (sorted_by_count d))
                       (take (min 5 (length queue)) queue))
    as (d & Hd & ->).
  { unfold analyze_queue in H. destruct queue as [|u q]; [done|].
    destruct (count_endpoints chk (u :: q) []) as [d|]; [|done].
    injection H as <-. by exists d. }
  clear H. cbn [total_urls sample_urls top_endpoints].
  destruct (count_endpoints_spec chk queue [] d Hd)
    as (Hnd & Hpos & Hcount & _); [constructor|done|].
  pose proof (sorted_by_count_perm d) as Hperm.
  pose proof (sorted_by_count_sorted d) as Hsorted.
  assert (NoDup (sorted_by_count d).*1) as Hnd'.
  { by rewrite Hperm. }
  assert (∀ e k, (e, k) ∈ sorted_by_count d →
                 0 < k ∧ k = endpoint_count chk e queue) as Hmem.
  { intros e k. rewrite Hperm. intros Hin.
    apply (elem_of_list_to_map (M := gmap string) _ _ _ Hnd) in Hin.
    split; [by apply (Hpos e)|].
    specialize (Hcount e). rewrite Hin in Hcount. simpl in Hcount.
    by rewrite lookup_empty in Hcount. }
  split_and!.
  - done.
  - destruct (Nat.min_spec 5 (length queue)) as [[_ ->]|[Hle ->]]; [done|].
    by rewrite !take_ge by lia.
  - rewrite length_take. lia.
  - rewrite <- (take_drop 10 (sorted_by_count d)), fmap_app in Hnd'.
    by apply NoDup_app in Hnd' as [? _].
  - rewrite <- (take_drop 10 (sorted_by_count d)) in Hsorted.
    by apply StronglySorted_app_1_l in Hsorted.
  - intros e k Hin. apply Hmem.
    rewrite <- (take_drop 10 (sorted_by_count d)). set_solver.
  - intros e Hpos_e Hnot.
    assert ((e, endpoint_count chk e queue) ∈ sorted_by_count d) as Hin.
    { rewrite Hperm.
      apply (elem_of_list_to_map (M := gmap string) _ _ _ Hnd).
      specialize (Hcount e). simpl in Hcount.
      rewrite lookup_empty in Hcount. simpl in Hcount.
      destruct (list_to_map d !! e) as [k|] eqn:Ek; simpl in Hcount; [|lia].
      by rewrite Hcount. }
    rewrite <- (take_drop 10 (sorted_by_count d)) in Hin.
    apply elem_of_app in Hin as [Hin|Hin].
    { exfalso. apply Hnot. apply list_elem_of_fmap. by eexists (_, _). }
    split.
    + rewrite length_take. apply list_elem_of_lookup in Hin as [i Hi].
      apply lookup_lt_Some in Hi. rewrite length_drop in Hi. lia.
    + intros e' k' Hin'.
      apply (sorted_take_drop _ 10 (e', k') (e, endpoint_count chk e queue)
               Hsorted Hin' Hin).
Qed.

Lemma analyze_queue_report_witness :
  let queue := ["https://visakanv.com/blog/a"; "https://visakanv.com/";
                "https://visakanv.com/blog/b/"] in
  let r := mkQueueReport 3 [("blog", 2); (EmptyString, 1)] queue in
  total_urls r = length queue
  ∧ sample_urls r = take 5 queue
  ∧ length (top_endpoints r) ≤ 10
  ∧ NoDup (top_endpoints r).*1
  ∧ StronglySorted (fun a b : string * nat => b.2 ≤ a.2) (top_endpoints r)
  ∧ (∀ e k, (e, k) ∈ top_endpoints r →
            0 < k ∧ k = endpoint_count (fun _ => true) e queue)
  ∧ (∀ e, 0 < endpoint_count (fun _ => true) e queue →
          e ∉ (top_endpoints r).*1 →
          length (top_endpoints r) = 10
          ∧ ∀ e' k', (e', k') ∈ top_endpoints r →
                     endpoint_count (fun _ => true) e queue ≤ k').
Proof.
  intros queue r.
  apply (analyze_queue_report (fun _ => true) queue r).
  vm_compute. reflexivity.
Defined.

(** X16.  The endpoint under which [analyze_queue] counts a URL is the
    first segment of its path, the slashes at the ends of the path being
    stripped: it holds no slash, and the stripped path is the endpoint
    alone or the endpoint followed by a slash.  The label "root" is never
    given in place of a missing segment: a URL whose path is empty or made
    of slashes is counted under the empty endpoint. *)
Theorem endpoint_is_first_segment
    (chk : string → bool) (url endpoint : string) :
  endpoint_of chk url = Ok endpoint →
  ∃ parsed,
    Urllib.urlparse chk url EmptyString = Some parsed
    ∧ let path := Py.strip_chars (Ascii.eqb "/") (Urllib.path parsed) in
      Py.contains_char "/" endpoint = false
      ∧ (path = endpoint ∨ ∃ rest, path = endpoint +:+ String "/" rest)
      ∧ (path = EmptyString → endpoint = EmptyString).
Proof.
  unfold endpoint_of.
  destruct (Urllib.urlparse chk url EmptyString) as [parsed|]; [|done].
  intros [= <-]. exists parsed. split; [done|]. cbv zeta.
  destruct (split_head "/" (Py.strip_chars (Ascii.eqb "/") (Urllib.path parsed)))
    as (h & t & -> & Hh & Hs).
  split_and!; [done..|].
  intros Hp. rewrite Hp in Hs.
  destruct Hs as [<-|[rest Hr]]; [done|]. by destruct h.
Qed.

Lemma endpoint_is_first_segment_witness :
  ∃ parsed,
    Urllib.urlparse (fun _ => true) Params.base_url EmptyString = Some parsed
    ∧ let path := Py.strip_chars (Ascii.eqb "/") (Urllib.path parsed) in
      Py.contains_char "/" EmptyString = false
      ∧ (path = EmptyString ∨ ∃ rest, path = EmptyString +:+ String "/" rest)
      ∧ (path = EmptyString → EmptyString = EmptyString).
Proof.
  apply (endpoint_is_first_segment (fun _ => true) Params.base_url EmptyString).
  vm_compute. reflexivity.
Defined.

(** X17.  During a crawl from the fresh state whose seed [urlparse]
    accepts, [analyze_queue] does not raise, whenever [save_checkpoint]
    calls it: every URL of the frontier is the seed or has passed
    [is_valid_url], so that [urlparse] accepts it. *)
Theorem analyze_queue_never_raises_in_a_crawl
    (max_pages checkpoint_interval : nat) (chk : string → bool)
    (domain : string) (requests_get : string → Response)
    (seed : string) (n : nat) :
  Urllib.urlparse chk seed EmptyString ≠ None →
  ∃ report,
    analyze_queue chk
      (queue (state (run max_pages checkpoint_interval
                       (fetcher_of chk domain requests_get) n
                       (scrape (mkWorld (fresh_state seed) None []))).2))
    = Ok report.
Proof.
  intros Hseed.
  pose (P := fun x => Urllib.urlparse chk x EmptyString ≠ None).
  assert (confined P (run max_pages checkpoint_interval
            (fetcher_of chk domain requests_get) n
            (scrape (mkWorld (fresh_state seed) None []))))
    as (Hq & _).
  { apply run_confined.
    - intros u l. unfold fetcher_of.
      destruct (fetch_links chk domain requests_get u) as [links md] eqn:E.
      simpl. intros Hl%elem_of_elements.
      assert (is_valid_url chk domain l = true) as Hv.
      { apply (fetch_links_valid chk domain requests_get u). by rewrite E. }
      apply is_valid_url_host in Hv as (p & _ & Hp & _).
      unfold P. by rewrite Hp.
    - unfold confined, P. simpl. split_and!; try set_solver.
      intros y Hy. by rewrite lookup_empty in Hy; destruct Hy. }
  revert Hq. generalize (queue (state (run max_pages checkpoint_interval
    (fetcher_of chk domain requests_get) n
    (scrape (mkWorld (fresh_state seed) None []))).2)).
  intros q Hq. unfold analyze_queue.
  assert (∀ d, ∃ d', count_endpoints chk q d = Ok d') as Hd.
  { induction q as [|u q IH]; intros d; simpl; [by eexists|].
    unfold endpoint_of at 1.
    destruct (Urllib.urlparse chk u EmptyString) eqn:Eu.
    - apply IH. intros x Hx. apply Hq. set_solver.
    - exfalso. apply (Hq u); [set_solver|done]. }
  destruct q as [|u q]; [by eexists|].
  destruct (Hd []) as [d' ->]. by eexists.
Qed.

Lemma analyze_queue_never_raises_in_a_crawl_witness :
  ∃ report,
    analyze_queue (fun _ => true)
      (queue (state (run 10 50
                       (fetcher_of (fun _ => true) Params.domain
                          Samples.anchor_web) 7
                       (scrape (mkWorld (fresh_state Params.base_url) None []))).2))
    = Ok report.
Proof.
  apply (analyze_queue_never_raises_in_a_crawl 10 50 (fun _ => true)
           Params.domain Samples.anchor_web Params.base_url 7).
  vm_compute. discriminate.
Defined.

(** * What [is_valid_url] accepts *)

Lemma prefix_spec (p s : string) :
  String.prefix p s = true ↔ ∃ b, s = p +:+ b.
Proof.
  revert s. induction p as [|x p IH]; intros s.
  { split; [by exists s|by destruct s]. }
  destruct s as [|y s]; simpl.
  { split; [done|]. by intros [b Hb]. }
  destruct (Ascii.ascii_dec x y) as [->|Hne].
  - rewrite IH. split; intros [b Hb]; exists b; [by rewrite Hb|].
    by injection Hb.
  - split; [done|]. intros [b Hb]. by injection Hb as <- _.
Qed.

Lemma contains_unfold (sub s : string) :
  Py.contains sub s
  = if String.prefix sub s then true
    else match s with
         | EmptyString => false
         | String _ s' => Py.contains sub s'
         end.
Proof. by destruct s. Qed.

Lemma contains_spec (sub s : string) :
  Py.contains sub s = true ↔ ∃ a b, s = a +:+ sub +:+ b.
Proof.
  split.
  - induction s as [|x s IH]; rewrite contains_unfold.
    + destruct (String.prefix sub EmptyString) eqn:E; [|done].
      apply prefix_spec in E as [b Hb]. intros _. by exists EmptyString, b.
    + destruct (String.prefix sub (String x s)) eqn:E.
      * apply prefix_spec in E as [b Hb]. intros _. by exists EmptyString, b.
      * intros (a & b & ->)%IH. by exists (String x a), b.
  - intros (a & b & ->). induction a as [|x a IH].
    + rewrite contains_unfold.
      replace (String.prefix sub (EmptyString +:+ sub +:+ b)) with true; [done|].
      symmetry. apply prefix_spec. by exists b.
    + change (String x a +:+ sub +:+ b) with (String x (a +:+ sub +:+ b)).
      rewrite contains_unfold, IH.
      by destruct (String.prefix sub (String x _)).
Qed.

Lemma contains_char_spec (c : ascii) (s : string) :
  Py.contains_char c s = true ↔ ∃ a b, s = a +:+ String c b.
Proof.
  induction s as [|x s IH]; simpl.
  { split; [done|]. intros ([|y a] & b & Hs); discriminate. }
  destruct (Ascii.eqb_spec x c) as [->|Hne].
  - split; [|done]. intros _. by exists EmptyString, s.
  - rewrite IH. split.
    + intros (a & b & ->). by exists (String x a), b.
    + intros ([|y a] & b & Hs); simpl in Hs; injection Hs as ? ?; [done|].
      by exists a, b.
Qed.

(** X18.  [is_valid_url] accepts exactly the URLs that [urlparse] accepts
    and whose scheme is http or https, whose host has the domain as a
    suffix, whose path holds none of the six blocked extensions as a
    substring, at its end or anywhere else, and which hold no '#'. *)
Theorem is_valid_url_accepts (chk : string → bool) (domain url : string) :
  is_valid_url chk domain url = true
  ↔ ∃ parsed,
      Urllib.urlparse chk url EmptyString = Some parsed
      ∧ (Urllib.scheme parsed = "http" ∨ Urllib.scheme parsed = "https")
      ∧ (∃ pre, Urllib.netloc parsed = pre +:+ domain)
      ∧ (∀ ext a b, ext ∈ blocked_extensions →
                    Urllib.path parsed ≠ a +:+ ext +:+ b)
      ∧ (∀ a b, url ≠ a +:+ String "#" b).
Proof.
  unfold is_valid_url.
  destruct (Urllib.urlparse chk url EmptyString) as [parsed|];
    [|split; [done|by intros (? & ? & _)]].
  rewrite !andb_true_iff, !negb_true_iff, PyFacts.endswith_spec.
  assert (Urllib.str_in (Urllib.scheme parsed) ["http"; "https"] = true
          ↔ Urllib.scheme parsed = "http" ∨ Urllib.scheme parsed = "https")
    as ->.
  { unfold Urllib.str_in. simpl.
    destruct (String.eqb_spec (Urllib.scheme parsed) "http");
      destruct (String.eqb_spec (Urllib.scheme parsed) "https");
      naive_solver. }
  assert (existsb (fun ext => Py.contains ext (Urllib.path parsed))
            blocked_extensions = false
          ↔ ∀ ext a b, ext ∈ blocked_extensions →
                       Urllib.path parsed ≠ a +:+ ext +:+ b) as ->.
  { split.
    - intros Hno ext a b Hext Hpath.
      assert (existsb (fun ext => Py.contains ext (Urllib.path parsed))
                blocked_extensions = true) as Hyes; [|congruence].
      apply existsb_exists. exists ext. split.
      + by apply list_elem_of_In.
      + apply contains_spec. by exists a, b.
    - intros Hno.
      destruct (existsb _ blocked_extensions) eqn:E; [|done].
      apply existsb_exists in E as (ext & Hext%list_elem_of_In & Hc).
      apply contains_spec in Hc as (a & b & Hpath).
      by destruct (Hno ext a b Hext). }
  assert (Py.contains_char "#" url = false ↔ ∀ a b, url ≠ a +:+ String "#" b)
    as ->.
  { split.
    - intros Hno a b ->.
      assert (Py.contains_char "#" (a +:+ String "#" b) = true) as Hyes;
        [|congruence].
      apply contains_char_spec. by exists a, b.
    - intros Hno. destruct (Py.contains_char "#" url) eqn:E; [|done].
      apply contains_char_spec in E as (a & b & ->).
      by destruct (Hno a b). }
  split.
  - intros [[[Hs Hn] He] Hh]. by exists parsed.
  - intros (p & [= <-] & Hs & Hn & He & Hh). done.
Qed.

(** A page whose path holds ".js" inside a segment is refused. *)
Lemma is_valid_url_accepts_witness :
  is_valid_url (fun _ => true) Params.domain
    "https://visakanv.com/notes.json/today" = false.
Proof.
  destruct (is_valid_url (fun _ => true) Params.domain
              "https://visakanv.com/notes.json/today") eqn:E; [|done].
  apply (is_valid_url_accepts (fun _ => true) Params.domain
           "https://visakanv.com/notes.json/today") in E
    as (parsed & [= <-] & _ & _ & He & _).
  destruct (He ".js" "/notes" "on/today"); [|done].
  unfold blocked_extensions. set_solver.
Defined.
